(** * Scheduled-task reconciliation of core/tasks.py

    A shallow embedding of [sync_scheduled_tasks] (core/tasks.py, lines
    170-319): the planner loop that builds the [actions] list, the
    coroutine [_handle_task_on_agent], the driver [_run] with its
    [asyncio.gather], and the [redis_lock] guard around them.

    The database is an explicit store, the log and the NATS traffic are an
    explicit trace, exceptions are values, and each coroutine is a small
    state machine that advances from one [await] to the next. *)

From Stdlib Require Import String Ascii.
From stdpp Require Import gmap strings list fin_maps.

Local Open Scope string_scope.
Local Open Scope nat_scope.

(** ** Constants of tacticalrmm.constants used by the function *)

Inductive AgentStatus := AGENT_STATUS_ONLINE | AGENT_STATUS_OFFLINE | AGENT_STATUS_OVERDUE.
Inductive TaskSyncStatus := SYNCED | NOT_SYNCED | PENDING_DELETION | INITIAL.
(** The function only tells [TaskType.ONBOARDING] from the other members
    of the enumeration, which are kept by their text. *)
Inductive TaskType := ONBOARDING | ORDINARY (kind : string).

#[global] Instance AgentStatus_eq_dec : EqDecision AgentStatus.
Proof. solve_decision. Defined.
#[global] Instance TaskSyncStatus_eq_dec : EqDecision TaskSyncStatus.
Proof. solve_decision. Defined.
#[global] Instance TaskType_eq_dec : EqDecision TaskType.
Proof. solve_decision. Defined.

(** The name of the lock; only its being one fixed key matters. *)
Definition SYNC_SCHED_TASK_LOCK : string := "sync-sched-tasks-lock-key".

(** ** packaging.version, restricted to release-only versions

    [pyver.parse] is the parser of the packaging library.  Agents report
    versions of the form N(.N)*; for these the comparison key of a
    [Version] is its release tuple with the trailing zeros removed, and
    two versions compare as Python tuples of integers do.  A string that
    is not of this form makes [pyver.parse] answer [None], which the
    callers turn into [InvalidVersion]. *)

Module pyver.

Definition Version := list N.

Definition digit_of (c : ascii) : option N :=
  let n := N_of_ascii c in
  if bool_decide (48 ≤ n ∧ n ≤ 57)%N then Some (n - 48)%N else None.

(** [segments s cur acc]: [cur] is the number read so far in the current
    dot-separated segment ([None] before its first digit), [acc] the
    finished segments in reverse. *)
Fixpoint segments (s : string) (cur : option N) (acc : list N) : option (list N) :=
  match s with
  | EmptyString =>
      match cur with
      | Some n => Some (rev (n :: acc))
      | None => None
      end
  | String c s' =>
      if Ascii.eqb c "."%char then
        match cur with
        | Some n => segments s' None (n :: acc)
        | None => None
        end
      else
        match digit_of c with
        | Some d => segments s' (Some (10 * default 0%N cur + d)%N) acc
        | None => None
        end
  end.

Definition parse (s : string) : option Version := segments s None [].

Fixpoint drop_zeros (l : list N) : list N :=
  match l with
  | 0%N :: l' => drop_zeros l'
  | _ => l
  end.

(** The release part of [Version._key]. *)
Definition key (v : Version) : list N := rev (drop_zeros (rev v)).

(** Python's ordering of tuples of integers. *)
Fixpoint tuple_cmp (a b : list N) : comparison :=
  match a, b with
  | [], [] => Eq
  | [], _ :: _ => Lt
  | _ :: _, [] => Gt
  | x :: a', y :: b' =>
      match N.compare x y with
      | Eq => tuple_cmp a' b'
      | c => c
      end
  end.

Definition cmp (a b : Version) : comparison := tuple_cmp (key a) (key b).

Definition ge (a b : Version) : bool :=
  match cmp a b with Lt => false | _ => true end.
Definition lt (a b : Version) : bool :=
  match cmp a b with Lt => true | _ => false end.

End pyver.

(** Python's [needle in haystack] on [str]. *)
Fixpoint str_contains (needle haystack : string) : bool :=
  String.prefix needle haystack ||
  match haystack with
  | EmptyString => false
  | String _ rest => str_contains needle rest
  end.


(** ** The records of the State Store

    The Django models live in agents/models.py and autotasks/models.py;
    the records keep the attributes that [sync_scheduled_tasks] reads or
    writes, under the names it uses. *)

(** A Python dict with string values; [[]] is the empty dict. *)
Definition Payload := list (string * string).

Module Agent.
Record t := mk {
  pk : nat;
  agent_id : string;
  hostname : string;
  version : string;
  status : AgentStatus;
  is_posix : bool;
  policy : option nat;
}.
End Agent.

(** A task is assigned to one agent or belongs to a policy: in the source
    [task.policy] is truthy for the second kind and [task.agent] is the
    agent of the first. *)
Inductive TaskOwner := OfAgent (agent_pk : nat) | OfPolicy (policy_pk : nat).

Module AutomatedTask.
Record t := mk {
  id : nat;
  name : string;
  task_type : TaskType;
  actions : string;
  win_task_name : string;
  owner : TaskOwner;
}.
End AutomatedTask.

Module TaskResult.
Record t := mk {
  id : nat;
  agent : nat;
  task : nat;
  retcode : Z;
  stdout : string;
  sync_status : TaskSyncStatus;
}.

Definition set_sync_status (v : TaskSyncStatus) (r : t) : t :=
  mk (id r) (agent r) (task r) (retcode r) (stdout r) v.

(** The row that [TaskResult.objects.acreate(agent=, task=)] inserts:
    every other column at its default. *)
Definition fresh (pk agent task : nat) : t := mk pk agent task 0 "" INITIAL.
End TaskResult.

(** The tables.  [taskresults] is keyed by (agent, task): the model allows
    one row per pair. *)
Record Store := mkStore {
  agents : list Agent.t;
  autotasks : gmap nat AutomatedTask.t;
  taskresults : gmap (nat * nat) TaskResult.t;
  next_pk : nat;
}.

(** ** What the function does to the outside, as a trace *)

Record NatsData := mkNatsData { func : string; schedtaskpayload : Payload }.

Inductive LogRecord :=
| LogDebug (p : Payload)
| LogInfo (msg : string)
| LogError (msg : string).

Inductive Exn :=
| InvalidVersion (s : string)
| DoesNotExist
| IntegrityError
| DatabaseError.

Inductive Event :=
| EvAgentQuery
| EvGetTask (task : nat)
| EvGetResult (agent task : nat)
| EvCreateResult (agent task : nat)
| EvSave (pk : nat) (update_fields : list string) (v : TaskSyncStatus) (raised : option Exn)
| EvDeleteTask (task : nat)
| EvConnect (raised : option string)
| EvNatsCmd (sub : string) (data : NatsData) (timeout : nat) (r : string)
| EvFlush
| EvClose
| EvLog (l : LogRecord).

(** The state the function runs in: the database, the cache that holds the
    locks, and the trace so far. *)
Record World := mkWorld {
  db : Store;
  cache : gmap string string;
  trace : list Event;
}.

Definition emit (e : Event) (w : World) : World :=
  mkWorld (db w) (cache w) (trace w ++ [e]).
Definition set_db (s : Store) (w : World) : World :=
  mkWorld s (cache w) (trace w).
Definition set_cache (c : gmap string string) (w : World) : World :=
  mkWorld (db w) c (trace w).

(** What the function does not decide: the descriptor generated from a
    task (autotasks/models.py), whether [nats.connect] raises, what an agent
    answers ([a_nats_cmd] of tacticalrmm/nats_utils.py returns a string, a
    timeout included), whether the database refuses a write, and what
    other writers do to the store between planning and dispatch. *)
Record Env := mkEnv {
  generate_nats_task_payload : AutomatedTask.t → Payload;
  nats_connect : option string;
  a_nats_cmd : list Event → string → NatsData → nat → string;
  db_error : list Event → bool;
  concurrent_edits : Store → Store;
}.

(** ** Exceptions as values *)

Definition Result (A : Type) : Type := Exn + A.

Definition ret {A} (x : A) : Result A := inr x.
Definition raise {A} (e : Exn) : Result A := inl e.

#[global] Instance Result_bind : MBind Result := λ A B k m,
  match m with
  | inl e => inl e
  | inr x => k x
  end.

(** A [for] loop that appends what each round yields and stops at the
    first exception. *)
Fixpoint collect {A B} (f : A → Result (list B)) (l : list A) : Result (list B) :=
  match l with
  | [] => ret []
  | x :: l' => ys ← f x ; zs ← collect f l' ; ret (ys ++ zs)%list
  end.

Definition parse_version (s : string) : Result pyver.Version :=
  match pyver.parse s with
  | Some v => ret v
  | None => raise (InvalidVersion s)
  end.

(** ** The planner: lines 176-238 *)

(** One element of [actions]:
    (0: action, 1: task.id, 2: agent object, 3: nats task payload,
     4: agent_id, 5: agent hostname).  The agent object is kept by its
    primary key, which is all the handler uses of it. *)
Module Item.
Record t := mk {
  action : string;
  task_id : nat;
  agent : nat;
  payload : Payload;
  agent_id : string;
  hostname : string;
}.
End Item.

Definition applies_to (a : Agent.t) (t : AutomatedTask.t) : bool :=
  match AutomatedTask.owner t with
  | OfAgent pk => bool_decide (pk = Agent.pk a)
  | OfPolicy p => bool_decide (Agent.policy a = Some p)
  end.

(** Modelled from the spec: [Agent.get_tasks_with_policies] is in
    agents/models.py.  It enumerates the agent's own tasks and those of its
    policy, each with its [task_result] attribute: the TaskResult of the
    pair, or the empty dict (here [None]) when there is none. *)
Definition get_tasks_with_policies (s : Store) (a : Agent.t)
  : list (AutomatedTask.t * option TaskResult.t) :=
  (λ t, (t, taskresults s !! (Agent.pk a, AutomatedTask.id t)))
    <$> filter (λ t, applies_to a t = true) ((map_to_list (autotasks s)).*2).

(** [isinstance(task.task_result, TaskResult) and
     task.task_result.sync_status == v] *)
Definition sync_status_is (task_result : option TaskResult.t) (v : TaskSyncStatus) : bool :=
  match task_result with
  | Some r => bool_decide (TaskResult.sync_status r = v)
  | None => false
  end.

(** [not task.task_result]: the empty dict is falsy, a model instance is
    truthy. *)
Definition falsy (task_result : option TaskResult.t) : bool :=
  match task_result with
  | Some _ => false
  | None => true
  end.

Definition agent_obj (a : Agent.t) (task : AutomatedTask.t) : nat :=
  match AutomatedTask.owner task with
  | OfPolicy _ => Agent.pk a
  | OfAgent pk => pk
  end.

Definition mk_action (action : string) (a : Agent.t)
    (task : AutomatedTask.t) (payload : Payload) : Item.t :=
  Item.mk action (AutomatedTask.id task) (agent_obj a task) payload
          (Agent.agent_id a) (Agent.hostname a).

(** [task.task_type == TaskType.ONBOARDING and
     pyver.parse(agent.version) < pyver.parse("2.6.0")] *)
Definition onboarding_unsupported (a : Agent.t) (task : AutomatedTask.t) : Result bool :=
  if bool_decide (AutomatedTask.task_type task = ONBOARDING) then
    v ← parse_version (Agent.version a);
    m ← parse_version "2.6.0";
    ret (pyver.lt v m)
  else ret false.

(** The body of [for task in agent.get_tasks_with_policies()]. *)
Definition plan_task (env : Env) (a : Agent.t)
    (tv : AutomatedTask.t * option TaskResult.t) : Result (list Item.t) :=
  unsupported ← onboarding_unsupported a tv.1;
  if (unsupported : bool) then ret []
  else if falsy tv.2 || sync_status_is tv.2 INITIAL then
    ret [mk_action "create" a tv.1 (generate_nats_task_payload env tv.1)]
  else if sync_status_is tv.2 PENDING_DELETION then
    ret [mk_action "delete" a tv.1 []]
  else if sync_status_is tv.2 NOT_SYNCED then
    ret [mk_action "modify" a tv.1 (generate_nats_task_payload env tv.1)]
  else ret [].

(** The body of [for agent in _get_agent_qs()]; the conjunction is
    evaluated left to right, as Python's [and] is. *)
Definition plan_agent (env : Env) (s : Store) (a : Agent.t) : Result (list Item.t) :=
  if Agent.is_posix a then ret []
  else
    v ← parse_version (Agent.version a) ;
    m ← parse_version "1.6.0" ;
    if pyver.ge v m && bool_decide (Agent.status a = AGENT_STATUS_ONLINE) then
      collect (plan_task env a) (get_tasks_with_policies s a)
    else ret [].

Definition planner (env : Env) (s : Store) : Result (list Item.t) :=
  collect (plan_agent env s) (agents s).

(** ** The store operations the handler awaits *)

Definition set_taskresults (m : gmap (nat * nat) TaskResult.t) (s : Store) : Store :=
  mkStore (agents s) (autotasks s) m (next_pk s).

(** [await AutomatedTask.objects.aget(id=task_id)] *)
Definition aget_task (task_id : nat) (w : World) : Result AutomatedTask.t * World :=
  let w' := emit (EvGetTask task_id) w in
  match autotasks (db w) !! task_id with
  | Some t => (ret t, w')
  | None => (raise DoesNotExist, w')
  end.

(** [await TaskResult.objects.aget(agent=agent, task=task)]; [None] stands
    for [TaskResult.DoesNotExist], which the handler catches. *)
Definition aget_result (agent task : nat) (w : World) : option TaskResult.t * World :=
  (taskresults (db w) !! (agent, task), emit (EvGetResult agent task) w).

(** [await TaskResult.objects.acreate(agent=agent, task=task)]: a new row
    with a new primary key; the database refuses a second row for the pair
    and a row for a task that is gone. *)
Definition acreate_result (agent task : nat) (w : World) : Result TaskResult.t * World :=
  let w' := emit (EvCreateResult agent task) w in
  match taskresults (db w) !! (agent, task), autotasks (db w) !! task with
  | None, Some _ =>
      let r := TaskResult.fresh (next_pk (db w)) agent task in
      (ret r,
       set_db (mkStore (agents (db w)) (autotasks (db w))
                       (<[(agent, task) := r]> (taskresults (db w)))
                       (S (next_pk (db w)))) w')
  | _, _ => (raise IntegrityError, w')
  end.

(** [await task_result.asave(update_fields=["sync_status"])]: an UPDATE of
    the one column of the row with the object's primary key.  It raises
    [DatabaseError] when the database fails or when no row is affected. *)
Definition asave_sync_status (env : Env) (tr : TaskResult.t) (w : World) : option Exn * World :=
  let k := (TaskResult.agent tr, TaskResult.task tr) in
  let v := TaskResult.sync_status tr in
  let row_there :=
    match taskresults (db w) !! k with
    | Some row => bool_decide (TaskResult.id row = TaskResult.id tr)
    | None => false
    end in
  if negb (db_error env (trace w)) && row_there then
    (None,
     emit (EvSave (TaskResult.id tr) ["sync_status"] v None)
          (set_db (set_taskresults
                     (alter (TaskResult.set_sync_status v) k (taskresults (db w)))
                     (db w)) w))
  else
    (Some DatabaseError,
     emit (EvSave (TaskResult.id tr) ["sync_status"] v (Some DatabaseError)) w).

(** [await task.adelete()].  Modelled from the spec: the foreign key from
    TaskResult to AutomatedTask is declared in autotasks/models.py; deleting
    the task deletes the TaskResult rows that point to it. *)
Definition adelete_task (task : AutomatedTask.t) (w : World) : World :=
  let tid := AutomatedTask.id task in
  emit (EvDeleteTask tid)
       (set_db (mkStore (agents (db w))
                        (delete tid (autotasks (db w)))
                        (filter (λ kv, kv.1.2 ≠ tid) (taskresults (db w)))
                        (next_pk (db w))) w).

(** ** The coroutine [_handle_task_on_agent]: lines 240-301

    A state names the [await] the coroutine is suspended at and holds its
    local variables; [step] completes that [await] and runs the code up to
    the next one. *)

Inductive Coro :=
| AwaitTask
| AwaitResult (task : AutomatedTask.t)
| AwaitCreate (task : AutomatedTask.t)
| AwaitNats (task : AutomatedTask.t) (task_result : TaskResult.t)
| AwaitStore (task : AutomatedTask.t) (task_result : TaskResult.t) (r : string)
| Returned
| Raised (e : Exn)
| Cancelled.

Definition finished (c : Coro) : bool :=
  match c with
  | Returned | Raised _ | Cancelled => true
  | _ => false
  end.

(** [action in ("create", "modify")] *)
Definition is_create_or_modify (action : string) : bool :=
  String.eqb action "create" || String.eqb action "modify".

(** The request of lines 258-264 and 283-287. *)
Definition nats_data (it : Item.t) (task : AutomatedTask.t) : NatsData :=
  if is_create_or_modify (Item.action it) then
    mkNatsData "schedtask" (Item.payload it)
  else
    mkNatsData "delschedtask" [("name", AutomatedTask.win_task_name task)].

Definition nats_request (env : Env) (it : Item.t) (task : AutomatedTask.t)
    (w : World) : string * World :=
  let w1 := if is_create_or_modify (Item.action it)
            then emit (EvLog (LogDebug (Item.payload it))) w else w in
  let data := nats_data it task in
  let r := a_nats_cmd env (trace w1) (Item.agent_id it) data 10 in
  (r, emit (EvNatsCmd (Item.agent_id it) data 10 r) w1).

Definition unable_msg (it : Item.t) (task : AutomatedTask.t) (r : string) : string :=
  "Unable to " +:+ Item.action it +:+ " scheduled task " +:+ AutomatedTask.name task
    +:+ " on " +:+ Item.hostname it +:+ ": " +:+ r.

(** Lines 265-280, after the reply [r] has arrived. *)
Definition create_modify_branch (env : Env) (it : Item.t) (task : AutomatedTask.t)
    (task_result : TaskResult.t) (r : string) (w : World) : Coro * World :=
  let '(task_result, w1) :=
    if negb (String.eqb r "ok") then
      (TaskResult.set_sync_status
         (if String.eqb (Item.action it) "create" then INITIAL else NOT_SYNCED)
         task_result,
       emit (EvLog (LogError (unable_msg it task r))) w)
    else
      (TaskResult.set_sync_status SYNCED task_result,
       emit (EvLog (LogInfo (Item.hostname it +:+ " task " +:+ AutomatedTask.name task
                              +:+ " was " +:+
                              (if String.eqb (Item.action it) "create"
                               then "created" else "modified")))) w) in
  match asave_sync_status env task_result w1 with
  | (None, w2) => (Returned, w2)
  | (Some e, w2) => (Raised e, w2)
  end.

(** Lines 289-301, after the reply [r] has arrived. *)
Definition delete_branch (env : Env) (it : Item.t) (task : AutomatedTask.t)
    (task_result : TaskResult.t) (r : string) (w : World) : Coro * World :=
  if negb (String.eqb r "ok")
     && negb (str_contains "The system cannot find the file specified" r) then
    let task_result := TaskResult.set_sync_status PENDING_DELETION task_result in
    (* with suppress(DatabaseError) *)
    let w1 := (asave_sync_status env task_result w).2 in
    (Returned, emit (EvLog (LogError (unable_msg it task r))) w1)
  else
    let task_name := AutomatedTask.name task in
    let w1 := adelete_task task w in
    (Returned,
     emit (EvLog (LogInfo (Item.hostname it +:+ " task " +:+ task_name
                            +:+ " was deleted."))) w1).

Definition step (env : Env) (it : Item.t) (c : Coro) (w : World) : Coro * World :=
  match c with
  | AwaitTask =>
      match aget_task (Item.task_id it) w with
      | (inr task, w1) => (AwaitResult task, w1)
      | (inl e, w1) => (Raised e, w1)
      end
  | AwaitResult task =>
      match aget_result (Item.agent it) (AutomatedTask.id task) w with
      | (Some task_result, w1) => (AwaitNats task task_result, w1)
      | (None, w1) => (AwaitCreate task, w1)
      end
  | AwaitCreate task =>
      match acreate_result (Item.agent it) (AutomatedTask.id task) w with
      | (inr task_result, w1) => (AwaitNats task task_result, w1)
      | (inl e, w1) => (Raised e, w1)
      end
  | AwaitNats task task_result =>
      let '(r, w1) := nats_request env it task w in
      (AwaitStore task task_result r, w1)
  | AwaitStore task task_result r =>
      if is_create_or_modify (Item.action it)
      then create_modify_branch env it task task_result r w
      else delete_branch env it task task_result r w
  | Returned | Raised _ | Cancelled => (c, w)
  end.

Fixpoint run_coro (env : Env) (fuel : nat) (it : Item.t) (c : Coro) (w : World)
  : Coro * World :=
  match fuel with
  | 0 => (c, w)
  | S n =>
      if finished c then (c, w)
      else let '(c', w') := step env it c w in run_coro env n it c' w'
  end.

(** The coroutine run alone from its first line to its end: it has at most
    five [await]s. *)
Definition _handle_task_on_agent (env : Env) (it : Item.t) (w : World) : Coro * World :=
  run_coro env 5 it AwaitTask w.

(** ** [asyncio.gather] and [_run]: lines 303-316

    [gather] is called without [return_exceptions]: the first exception of
    a coroutine is raised to the awaiting [_run], which has no handler for
    it, and [asyncio.run] cancels the coroutines still pending when [_run]
    ends.  The event loop resumes the coroutines in an order the code does
    not fix: [sched] lists the coroutines by position, one entry per
    completed [await]. *)

Definition cancel_pending (ts : list (Item.t * Coro)) : list (Item.t * Coro) :=
  (λ t, (t.1, if finished t.2 then t.2 else Cancelled)) <$> ts.

Fixpoint resume_all (env : Env) (sched : list nat) (ts : list (Item.t * Coro)) (w : World)
  : option Exn * list (Item.t * Coro) * World :=
  match sched with
  | [] => (None, ts, w)
  | i :: sched' =>
      match ts !! i with
      | Some t =>
          if finished t.2 then resume_all env sched' ts w
          else
            let '(c, w') := step env t.1 t.2 w in
            let ts' := <[i := (t.1, c)]> ts in
            match c with
            | Raised e => (Some e, cancel_pending ts', w')
            | _ => resume_all env sched' ts' w'
            end
      | None => resume_all env sched' ts w
      end
  end.

(** Every coroutine in turn, five [await]s each: enough to finish all of
    them. *)
Definition round_robin (n : nat) : list nat :=
  flat_map (λ i, replicate 5 i) (seq 0 n).

(** [gather] waits for all coroutines: after the order [sched] the
    coroutines still pending are resumed one after the other up to their
    end. *)
Definition gather (env : Env) (sched : list nat) (ts : list (Item.t * Coro)) (w : World)
  : option Exn * list (Item.t * Coro) * World :=
  resume_all env (sched ++ round_robin (length ts)) ts w.

(** The coroutines of [ts], resumed one [await] at a time in some order
    without any of them raising, reach [ts'] and take the world from [w]
    to [w']. *)
Inductive resumes (env : Env)
  : list (Item.t * Coro) → World → list (Item.t * Coro) → World → Prop :=
| resumes_refl ts w : resumes env ts w ts w
| resumes_step ts w i it c c' w1 ts' w' :
    ts !! i = Some (it, c) →
    finished c = false →
    step env it c w = (c', w1) →
    (∀ e, c' ≠ Raised e) →
    resumes env (<[i := (it, c')]> ts) w1 ts' w' →
    resumes env ts w ts' w'.

(** The number of [await]s a coroutine may still need. *)
Definition remaining (c : Coro) : nat :=
  match c with
  | AwaitTask => 5
  | AwaitResult _ => 4
  | AwaitCreate _ => 3
  | AwaitNats _ _ => 2
  | AwaitStore _ _ _ => 1
  | Returned | Raised _ | Cancelled => 0
  end.

(** A coroutine that has neither raised nor been cancelled. *)
Definition live (c : Coro) : Prop := c ≠ Cancelled ∧ ∀ e, c ≠ Raised e.

(** [[_handle_task_on_agent(nc, task) for task in actions]]: one coroutine
    per item, none of them started. *)
Definition spawn (actions : list Item.t) : list (Item.t * Coro) :=
  (λ it, (it, AwaitTask)) <$> actions.

(** [_run]: its value is the connect error as a string, or [None]. *)
Definition _run (env : Env) (sched : list nat) (actions : list Item.t) (w : World)
  : Result (option string) * World :=
  match nats_connect env with
  | Some e =>
      let ret_ := e in
      (ret (Some ret_), emit (EvLog (LogError ret_)) (emit (EvConnect (Some e)) w))
  | None =>
      let w1 := emit (EvConnect None) w in
      let '(exn, _, w2) :=
        match actions with
        | [] => (None, [], w1)
        | _ => gather env sched (spawn actions) w1
        end in
      match exn with
      | Some e => (raise e, w2)
      | None => (ret None, emit EvClose (emit EvFlush w2))
      end
  end.

(** ** [redis_lock] and [sync_scheduled_tasks]: lines 170-319 *)

(** Modelled from the spec: [redis_lock] is in tacticalrmm/utils.py.  The
    guard is a named lock that is taken without blocking when nobody holds
    it and is released when the block is left. *)
Definition try_acquire (name owner : string) (w : World) : bool * World :=
  match cache w !! name with
  | Some _ => (false, w)
  | None => (true, set_cache (<[name := owner]> (cache w)) w)
  end.

Definition release (name : string) (w : World) : World :=
  set_cache (delete name (cache w)) w.

(** [oid] is [self.app.oid]. *)
Definition sync_scheduled_tasks (env : Env) (oid : string) (sched : list nat) (w : World)
  : Result string * World :=
  let '(acquired, w0) := try_acquire SYNC_SCHED_TASK_LOCK oid w in
  if negb acquired then (ret (oid +:+ " still running"), w0)
  else
    let w1 := emit EvAgentQuery w0 in
    match planner env (db w1) with
    | inl e => (raise e, release SYNC_SCHED_TASK_LOCK w1)
    | inr actions =>
        let w2 := set_db (concurrent_edits env (db w1)) w1 in
        match _run env sched actions w2 with
        | (inl e, w3) => (raise e, release SYNC_SCHED_TASK_LOCK w3)
        | (inr _, w3) => (ret "ok", release SYNC_SCHED_TASK_LOCK w3)
        end
    end.

(** In a well-formed store a task sits under its id and a TaskResult under
    its pair. *)
Definition wf_store (s : Store) : Prop :=
  (∀ k t, autotasks s !! k = Some t → AutomatedTask.id t = k)
  ∧ (∀ k r, taskresults s !! k = Some r → (TaskResult.agent r, TaskResult.task r) = k).


(** ** A small fleet to run the model on *)

Module Fleet.

Definition generate (t : AutomatedTask.t) : Payload :=
  [("name", AutomatedTask.win_task_name t); ("actions", AutomatedTask.actions t)].

Definition env (reply : string) : Env :=
  mkEnv generate None (λ _ _ _ _, reply) (λ _, false) (λ s, s).

Definition win1 := Agent.mk 1 "agent-1" "win1" "2.6.0" AGENT_STATUS_ONLINE false None.
Definition t7 := AutomatedTask.mk 7 "backup" (ORDINARY "daily") "run backup.ps1" "TacticalRMM_7" (OfAgent 1).

Definition store0 : Store := mkStore [win1] {[ 7 := t7 ]} ∅ 100.
Definition world0 : World := mkWorld store0 ∅ [].

(** The same pair with a TaskResult in a given sync-status. *)
Definition tr7 (v : TaskSyncStatus) : TaskResult.t := TaskResult.mk 40 1 7 0 "done" v.
Definition store7 (v : TaskSyncStatus) : Store :=
  mkStore [win1] {[ 7 := t7 ]} {[ (1, 7) := tr7 v ]} 100.
Definition world7 (v : TaskSyncStatus) : World := mkWorld (store7 v) ∅ [].

(** Another invocation holds the lock. *)
Definition world_locked : World :=
  mkWorld store0 {[ SYNC_SCHED_TASK_LOCK := "celery@worker2" ]} [].

(** A second task of the agent, and an operator who removes task 8
    while the cycle is between planning and dispatch. *)
Definition t8 := AutomatedTask.mk 8 "cleanup" (ORDINARY "weekly") "run cleanup.ps1" "TacticalRMM_8" (OfAgent 1).
Definition store78 : Store := mkStore [win1] {[ 7 := t7; 8 := t8 ]} ∅ 100.

Definition item7 (action : string) : Item.t :=
  Item.mk action 7 1 (generate t7) "agent-1" "win1".


(** The message bus is down. *)
Definition env_down : Env :=
  mkEnv generate (Some "nats: no servers available for connection")
        (λ _ _ _ _, "ok") (λ _, false) (λ s, s).

(** An operator edits task 7 while the cycle is between planning and
    dispatch. *)
Definition t7_edited :=
  AutomatedTask.mk 7 "backup" (ORDINARY "daily") "run backup-v2.ps1" "TacticalRMM_7" (OfAgent 1).
Definition env_edit : Env :=
  mkEnv generate None (λ _ _ _ _, "ok") (λ _, false)
        (λ s, mkStore (agents s) (<[7 := t7_edited]> (autotasks s))
                      (taskresults s) (next_pk s)).

End Fleet.

(** ** What the spec says the planner decides, in the spec's words *)



Definition is_remote_call (e : Event) : bool :=
  match e with
  | EvNatsCmd _ _ _ _ => true
  | _ => false
  end.

(** The remote calls of a trace, in order. *)
Definition remote_calls (t : list Event) : list Event :=
  filter (λ e, is_remote_call e = true) t.


(** ** [_get_failing_data]: lines 322-364 *)

Module TaskStatus.
Inductive t := PASSING | FAILING | PENDING.
End TaskStatus.

Module AlertSeverity.
Inductive t := INFO | WARNING | ERROR.
End AlertSeverity.

#[global] Instance TaskStatus_eq_dec : EqDecision TaskStatus.t.
Proof. solve_decision. Defined.
#[global] Instance AlertSeverity_eq_dec : EqDecision AlertSeverity.t.
Proof. solve_decision. Defined.

(** What the function reads of a task of [agent.get_tasks_with_policies()]:
    [task.alert_severity] and, when [task.task_result] is a TaskResult
    ([None] stands for the empty dict), [task.task_result.status]. *)
Module MonitoredTask.
Record t := mk {
  alert_severity : AlertSeverity.t;
  task_result : option TaskStatus.t;
}.
End MonitoredTask.

(** What the function reads of an agent.  [checks] is the dict
    [agent.checks]; its entries "warning" and "failing" are tested for
    truth, which for a count means not zero. *)
Module MonitoredAgent.
Record t := mk {
  maintenance_mode : bool;
  overdue_email_alert : bool;
  overdue_text_alert : bool;
  overdue_dashboard_alert : bool;
  status : AgentStatus;
  has_failing_checks : bool;
  checks_warning : nat;
  checks_failing : nat;
  tasks : list MonitoredTask.t;
}.
End MonitoredAgent.

(** The dict [{"error": ..., "warning": ...}]. *)
Module FailingData.
Record t := mk { error : bool; warning : bool }.
Definition set_error (d : t) : t := mk true (warning d).
Definition set_warning (d : t) : t := mk (error d) true.
End FailingData.

Definition truthy (n : nat) : bool := negb (n =? 0).

Definition task_failing_with (task : MonitoredTask.t) (sev : AlertSeverity.t) : bool :=
  match MonitoredTask.task_result task with
  | Some st =>
      bool_decide (st = TaskStatus.FAILING)
      && bool_decide (MonitoredTask.alert_severity task = sev)
  | None => false
  end.

(** The inner loop, lines 346-362; [break] returns, [continue] goes on
    with the rest. *)
Fixpoint task_loop (data : FailingData.t) (tasks : list MonitoredTask.t) : FailingData.t :=
  match tasks with
  | [] => data
  | task :: rest =>
      if FailingData.error data && FailingData.warning data then data
      else
        match MonitoredTask.task_result task with
        | None => task_loop data rest
        | Some _ =>
            if negb (FailingData.error data)
               && task_failing_with task AlertSeverity.ERROR
            then task_loop (FailingData.set_error data) rest
            else if negb (FailingData.warning data)
                    && task_failing_with task AlertSeverity.WARNING
            then task_loop (FailingData.set_warning data) rest
            else task_loop data rest
        end
  end.

(** The outer loop, lines 324-362. *)
Fixpoint agent_loop (data : FailingData.t) (agents : list MonitoredAgent.t) : FailingData.t :=
  match agents with
  | [] => data
  | agent :: rest =>
      if MonitoredAgent.maintenance_mode agent then data
      else if (MonitoredAgent.overdue_email_alert agent
               || MonitoredAgent.overdue_text_alert agent
               || MonitoredAgent.overdue_dashboard_alert agent)
              && bool_decide (MonitoredAgent.status agent = AGENT_STATUS_OVERDUE)
      then FailingData.set_error data
      else
        let data1 :=
          if MonitoredAgent.has_failing_checks agent
             && truthy (MonitoredAgent.checks_warning agent)
          then FailingData.set_warning data else data in
        if MonitoredAgent.has_failing_checks agent
           && truthy (MonitoredAgent.checks_failing agent)
        then FailingData.set_error data1
        else
          let data2 :=
            if negb (FailingData.error data1) && negb (FailingData.warning data1)
            then task_loop data1 (MonitoredAgent.tasks agent) else data1 in
          agent_loop data2 rest
  end.

Definition _get_failing_data (agents : list MonitoredAgent.t) : FailingData.t :=
  agent_loop (FailingData.mk false false) agents.

(** The conditions of lines 328-343 that set "error" and leave the loop. *)
Definition overdue_alerting (a : MonitoredAgent.t) : bool :=
  (MonitoredAgent.overdue_email_alert a
   || MonitoredAgent.overdue_text_alert a
   || MonitoredAgent.overdue_dashboard_alert a)
  && bool_decide (MonitoredAgent.status a = AGENT_STATUS_OVERDUE).

Definition checks_failing_now (a : MonitoredAgent.t) : bool :=
  MonitoredAgent.has_failing_checks a && truthy (MonitoredAgent.checks_failing a).

Definition checks_warning_now (a : MonitoredAgent.t) : bool :=
  MonitoredAgent.has_failing_checks a && truthy (MonitoredAgent.checks_warning a).

Definition without_tasks (a : MonitoredAgent.t) : MonitoredAgent.t :=
  MonitoredAgent.mk (MonitoredAgent.maintenance_mode a)
    (MonitoredAgent.overdue_email_alert a) (MonitoredAgent.overdue_text_alert a)
    (MonitoredAgent.overdue_dashboard_alert a) (MonitoredAgent.status a)
    (MonitoredAgent.has_failing_checks a) (MonitoredAgent.checks_warning a)
    (MonitoredAgent.checks_failing a) [].
(** An agent the loop reaches: it and the agents before it are not in
    maintenance mode. *)
Definition reached (agents l1 : list MonitoredAgent.t) (a : MonitoredAgent.t)
    (l2 : list MonitoredAgent.t) : Prop :=
  agents = (l1 ++ a :: l2)%list
  ∧ Forall (λ b, MonitoredAgent.maintenance_mode b = false) l1
  ∧ MonitoredAgent.maintenance_mode a = false.

(** Agents to run the function on. *)
Module Site.
Definition healthy : MonitoredAgent.t :=
  MonitoredAgent.mk false true true true AGENT_STATUS_ONLINE false 0 0 [].
Definition in_maintenance : MonitoredAgent.t :=
  MonitoredAgent.mk true true true true AGENT_STATUS_OVERDUE true 0 2 [].
Definition overdue : MonitoredAgent.t :=
  MonitoredAgent.mk false false true false AGENT_STATUS_OVERDUE false 0 0 [].
Definition check_warning : MonitoredAgent.t :=
  MonitoredAgent.mk false false false false AGENT_STATUS_ONLINE true 1 0 [].
Definition failing_task (sev : AlertSeverity.t) : MonitoredTask.t :=
  MonitoredTask.mk sev (Some TaskStatus.FAILING).
Definition task_error : MonitoredAgent.t :=
  MonitoredAgent.mk false false false false AGENT_STATUS_ONLINE false 0 0
    [MonitoredTask.mk AlertSeverity.ERROR None; failing_task AlertSeverity.ERROR].
End Site.

(** ** [resolve_pending_actions]: lines 99-115 *)

Module PAStatus.
Inductive t := PENDING | COMPLETED.
End PAStatus.

(** The function only tells [PAAction.AGENT_UPDATE] from the other members
    of the enumeration. *)
Inductive PAAction := AGENT_UPDATE | OTHER_ACTION (name : string).

#[global] Instance PAStatus_eq_dec : EqDecision PAStatus.t.
Proof. solve_decision. Defined.
#[global] Instance PAAction_eq_dec : EqDecision PAAction.
Proof. solve_decision. Defined.

(** A row of PendingAction with its agent, as [select_related("agent")]
    gives it. *)
Module PendingAction.
Record t := mk {
  id : nat;
  agent : Agent.t;
  action_type : PAAction;
  status : PAStatus.t;
}.
Definition set_status (v : PAStatus.t) (a : t) : t :=
  mk (id a) (agent a) (action_type a) v.
End PendingAction.

(** [Version.__eq__]: the keys are equal. *)
Definition version_eq (a b : pyver.Version) : bool :=
  bool_decide (pyver.key a = pyver.key b).

(** The queryset of lines 102-106. *)
Definition pending_agent_updates (table : list PendingAction.t) : list PendingAction.t :=
  filter (λ a, PendingAction.action_type a = AGENT_UPDATE
               ∧ PendingAction.status a = PAStatus.PENDING) table.

(** The condition of the comprehension, lines 111-112; both versions are
    parsed before they are compared. *)
Definition just_updated (latest : string) (action : PendingAction.t) : Result bool :=
  v ← parse_version (Agent.version (PendingAction.agent action));
  l ← parse_version latest;
  ret (version_eq v l
       && bool_decide (Agent.status (PendingAction.agent action) = AGENT_STATUS_ONLINE)).

Definition to_update (latest : string) (table : list PendingAction.t) : Result (list nat) :=
  collect (λ action, b ← just_updated latest action;
                     ret (if (b : bool) then [PendingAction.id action] else []))
          (pending_agent_updates table).

(** [PendingAction.objects.filter(pk__in=to_update).update(status=...)] *)
Definition update_status (pks : list nat) (v : PAStatus.t) (table : list PendingAction.t)
  : list PendingAction.t :=
  (λ a, if bool_decide (PendingAction.id a ∈ pks) then PendingAction.set_status v a else a)
    <$> table.

(** [latest] is [settings.LATEST_AGENT_VER]; the result is the exception,
    if any, and the table afterwards. *)
Definition resolve_pending_actions (latest : string) (table : list PendingAction.t)
  : Result unit * list PendingAction.t :=
  match to_update latest table with
  | inl e => (inl e, table)
  | inr pks => (inr (), update_status pks PAStatus.COMPLETED table)
  end.

(** The agent of a pending update has just updated. *)
Definition updated_and_online (latest : string) (a : PendingAction.t) : Prop :=
  ∃ v l, pyver.parse (Agent.version (PendingAction.agent a)) = Some v
    ∧ pyver.parse latest = Some l
    ∧ pyver.key v = pyver.key l
    ∧ Agent.status (PendingAction.agent a) = AGENT_STATUS_ONLINE.
(** Pending actions to run the function on. *)
Module Desk.
Definition short_version := Agent.mk 2 "agent-2" "win2" "2.6" AGENT_STATUS_ONLINE false None.
Definition offline_garbled := Agent.mk 3 "agent-3" "win3" "2.6.0-dirty" AGENT_STATUS_OFFLINE false None.
Definition old_version := Agent.mk 4 "agent-4" "win4" "2.5.9" AGENT_STATUS_ONLINE false None.

Definition table : list PendingAction.t :=
  [PendingAction.mk 11 short_version AGENT_UPDATE PAStatus.PENDING;
   PendingAction.mk 12 old_version AGENT_UPDATE PAStatus.PENDING;
   PendingAction.mk 13 short_version (OTHER_ACTION "schedreboot") PAStatus.PENDING].
Definition table_after : list PendingAction.t :=
  [PendingAction.mk 11 short_version AGENT_UPDATE PAStatus.COMPLETED;
   PendingAction.mk 12 old_version AGENT_UPDATE PAStatus.PENDING;
   PendingAction.mk 13 short_version (OTHER_ACTION "schedreboot") PAStatus.PENDING].
Definition garbled : PendingAction.t :=
  PendingAction.mk 14 offline_garbled AGENT_UPDATE PAStatus.PENDING.
End Desk.

(** ** [core_maintenance_tasks]: lines 66-96 *)

(** The settings the function reads of [get_core_settings()]. *)
Module CoreSettings.
Record t := mk {
  check_history_prune_days : Z;
  resolved_alerts_prune_days : Z;
  agent_history_prune_days : Z;
  debug_log_prune_days : Z;
  audit_log_prune_days : Z;
  clear_faults_days : Z;
}.
End CoreSettings.

(** A celery task queued with [.delay(days)], by the name of the task. *)
Inductive Job :=
| prune_check_history (days : Z)
| prune_resolved_alerts (days : Z)
| prune_agent_history (days : Z)
| prune_debug_log (days : Z)
| prune_audit_log (days : Z)
| clear_faults_task (days : Z).

(** The two columns of AutomatedTask the function filters on; a date is a
    point in time, [None] is NULL. *)
Module TaskSchedule.
Record t := mk {
  remove_if_not_scheduled : bool;
  expire_date : option Z;
}.
End TaskSchedule.

(** [remove_if_not_scheduled=True, expire_date__lt=now]: a NULL date is
    not before any time. *)
Definition expired (now : Z) (c : TaskSchedule.t) : bool :=
  TaskSchedule.remove_if_not_scheduled c
  && match TaskSchedule.expire_date c with
     | Some d => bool_decide (d < now)%Z
     | None => false
     end.

(** [AutomatedTask.objects.filter(...).delete()]: the tasks go, and with
    them the TaskResult rows that point to them, as in [adelete_task].
    [schedule] gives the two columns of a task. *)
Definition delete_expired (now : Z) (schedule : AutomatedTask.t → TaskSchedule.t)
    (s : Store) : Store :=
  mkStore (agents s)
    (filter (λ kv, negb (expired now (schedule kv.2)) = true) (autotasks s))
    (filter (λ kv, match autotasks s !! kv.1.2 with
                   | Some t => negb (expired now (schedule t))
                   | None => true
                   end = true) (taskresults s))
    (next_pk s).

Definition queue_if_positive (days : Z) (job : Z → Job) : list Job :=
  if bool_decide (0 < days)%Z then [job days] else [].

Definition maintenance_jobs (core : CoreSettings.t) : list Job :=
  (queue_if_positive (CoreSettings.check_history_prune_days core) prune_check_history
   ++ queue_if_positive (CoreSettings.resolved_alerts_prune_days core) prune_resolved_alerts
   ++ queue_if_positive (CoreSettings.agent_history_prune_days core) prune_agent_history
   ++ queue_if_positive (CoreSettings.debug_log_prune_days core) prune_debug_log
   ++ queue_if_positive (CoreSettings.audit_log_prune_days core) prune_audit_log
   ++ queue_if_positive (CoreSettings.clear_faults_days core) clear_faults_task)%list.

(** [now] is [djangotime.now()], [core] is [get_core_settings()]; the
    result is the store afterwards and the jobs queued, in order. *)
Definition core_maintenance_tasks (now : Z) (schedule : AutomatedTask.t → TaskSchedule.t)
    (core : CoreSettings.t) (s : Store) : Store * list Job :=
  (delete_expired now schedule s, maintenance_jobs core).

(** Columns and settings to run the maintenance on. *)
Module Upkeep.
Definition schedule (t : AutomatedTask.t) : TaskSchedule.t :=
  if bool_decide (AutomatedTask.id t = 7) then TaskSchedule.mk true (Some 1000%Z)
  else TaskSchedule.mk true None.
Definition core : CoreSettings.t := CoreSettings.mk 30 0 60 0 0 0.
End Upkeep.

(** ** What a coroutine may add to the trace *)

(** The events of [_handle_task_on_agent]: reads, the creation of a
    TaskResult, saves restricted to sync_status, the deletion of a task,
    requests with a timeout of 10, and log records. *)
Definition handler_event (e : Event) : bool :=
  match e with
  | EvGetTask _ | EvGetResult _ _ | EvCreateResult _ _ | EvDeleteTask _ | EvLog _ => true
  | EvSave _ fields _ _ => bool_decide (fields = ["sync_status"])
  | EvNatsCmd _ _ timeout _ => bool_decide (timeout = 10)
  | EvAgentQuery | EvConnect _ | EvFlush | EvClose => false
  end.

(** What every step of a coroutine keeps: the agents and the lock cache as
    they are, no task added or altered, and a trace that grows by handler
    events. *)
Definition step_keeps (w w' : World) : Prop :=
  agents (db w') = agents (db w)
  ∧ cache w' = cache w
  ∧ (∀ k t, autotasks (db w') !! k = Some t → autotasks (db w) !! k = Some t)
  ∧ ∃ evs, trace w' = (trace w ++ evs)%list ∧ Forall (λ e, handler_event e = true) evs.

(** ** The planner and the handler together *)

(** The reply counts as a success of a delete: line 289. *)
Definition delete_succeeded (r : string) : bool :=
  String.eqb r "ok" || str_contains "The system cannot find the file specified" r.


(** A fleet with an agent whose version does not parse and a POSIX
    agent. *)
Module Fleet2.
Definition garbled := Agent.mk 5 "agent-5" "win5" "unknown" AGENT_STATUS_OFFLINE false None.
End Fleet2.

(** ** [resolve_alerts_task]: lines 149-167 *)


(** The function only tells [AlertType.AVAILABILITY] from the other
    members of the enumeration. *)
Inductive AlertType := AVAILABILITY | OTHER_ALERT (name : string).

#[global] Instance AlertType_eq_dec : EqDecision AlertType.
Proof. solve_decision. Defined.

(** The columns of Alert the function filters on; [agent] is the primary
    key of the agent, [None] for an alert without agent. *)
Module Alert.
Record t := mk {
  alert_type : AlertType;
  agent : option nat;
  resolved : bool;
}.
End Alert.





(** Alerts to run the function on. *)
Module Watch.
End Watch.

(** ** [cache_db_fields_task]: lines 367-379 *)

(** The columns of a Site and of a Client that the task touches: the
    primary key, the client of a site, and [failing_checks]. *)
Module SiteRow.
Record t := mk { id : nat; client : nat; failing_checks : FailingData.t }.
End SiteRow.

Module ClientRow.
Record t := mk { id : nat; failing_checks : FailingData.t }.
End ClientRow.

(** An agent of the queryset [_get_agent_qs()] with its [site_id]. *)
Module SiteAgent.
Record t := mk { site : option nat; row : MonitoredAgent.t }.
End SiteAgent.

Record Inventory := mkInventory {
  inv_sites : list SiteRow.t;
  inv_clients : list ClientRow.t;
  inv_agents : list SiteAgent.t;
}.

(** [qs.filter(site=site)] *)
Definition in_site (site : SiteRow.t) (a : SiteAgent.t) : bool :=
  bool_decide (SiteAgent.site a = Some (SiteRow.id site)).

(** [qs.filter(site__client=client)]: the agents joined to a site of the
    client. *)
Definition in_client (sites : list SiteRow.t) (client : ClientRow.t) (a : SiteAgent.t) : bool :=
  existsb (λ s, in_site s a && (SiteRow.client s =? ClientRow.id client)) sites.

Definition site_agents (inv : Inventory) (site : SiteRow.t) : list MonitoredAgent.t :=
  SiteAgent.row <$> filter (λ a, in_site site a = true) (inv_agents inv).

Definition client_agents (inv : Inventory) (client : ClientRow.t) : list MonitoredAgent.t :=
  SiteAgent.row <$> filter (λ a, in_client (inv_sites inv) client a = true) (inv_agents inv).

(** The first loop, lines 371-374; [save(update_fields=["failing_checks"])]
    writes that column only. *)
Definition cache_sites (inv : Inventory) : Inventory :=
  mkInventory
    ((λ site, SiteRow.mk (SiteRow.id site) (SiteRow.client site)
                (_get_failing_data (site_agents inv site))) <$> inv_sites inv)
    (inv_clients inv) (inv_agents inv).

(** The second loop, lines 376-379. *)
Definition cache_clients (inv : Inventory) : Inventory :=
  mkInventory (inv_sites inv)
    ((λ client, ClientRow.mk (ClientRow.id client)
                  (_get_failing_data (client_agents inv client))) <$> inv_clients inv)
    (inv_agents inv).

Definition cache_db_fields_task (inv : Inventory) : Inventory :=
  cache_clients (cache_sites inv).

(** An agent that does not end the scan. *)
Definition passable (b : MonitoredAgent.t) : Prop :=
  MonitoredAgent.maintenance_mode b = false
  ∧ overdue_alerting b = false
  ∧ checks_failing_now b = false.

(** An agent that leaves both flags down when it is reached with both
    down. *)
Definition quiet (b : MonitoredAgent.t) : Prop :=
  checks_warning_now b = false
  ∧ task_loop (FailingData.mk false false) (MonitoredAgent.tasks b)
    = FailingData.mk false false.

(** Two sites of one client and one of another. *)
Module Estate.
Definition inv : Inventory :=
  mkInventory
    [SiteRow.mk 10 1 (FailingData.mk false false);
     SiteRow.mk 11 1 (FailingData.mk true true);
     SiteRow.mk 20 2 (FailingData.mk false false)]
    [ClientRow.mk 1 (FailingData.mk false false);
     ClientRow.mk 2 (FailingData.mk true false)]
    [SiteAgent.mk (Some 10) Site.healthy;
     SiteAgent.mk (Some 20) Site.overdue;
     SiteAgent.mk (Some 11) Site.task_error;
     SiteAgent.mk (Some 10) Site.check_warning;
     SiteAgent.mk None Site.overdue].
End Estate.

(** ** [sync_mesh_perms_task]: lines 382-505 *)

(** The name of the lock; only its being one fixed key matters. *)
Definition SYNC_MESH_PERMS_TASK_LOCK : string := "sync-mesh-perms-lock-key".

(** [re.search(r".*___\d+", s)] for an id in ASCII: somewhere in the text
    three underscores are followed by a digit. *)
Definition starts_with_mark (s : string) : bool :=
  match s with
  | String "_"%char (String "_"%char (String "_"%char (String c _))) =>
      match pyver.digit_of c with Some _ => true | None => false end
  | _ => false
  end.

Fixpoint mesh_id_matches (s : string) : bool :=
  match s with
  | EmptyString => false
  | String _ rest => starts_with_mark s || mesh_id_matches rest
  end.

(** An entry of [get_mesh_users(uri)["users"]]: its "_id", the keys of its
    "links" dict when it has one, and its "realname" when it has one. *)
Module MeshUser.
Record t := mk {
  _id : string;
  links : option (list string);
  realname : option string;
}.
End MeshUser.

(** What the function reads of a User. *)
Module User.
Record t := mk {
  username : string;
  first_name : string;
  last_name : string;
  is_superuser : bool;
  mesh_user_id : string;
  mesh_username : string;
  agent : option nat;
  is_installer_user : bool;
  is_active : bool;
  block_dashboard_login : bool;
}.
End User.

(** What the function reads of an Agent. *)
Module MeshAgent.
Record t := mk { agent_id : string; hostname : string; hex_mesh_node_id : string }.
End MeshAgent.

(** An entry of [trmm_agents]. *)
Module MeshLink.
Record t := mk { node_id : string; hostname : string }.
End MeshLink.

(** The dict [user_info]. *)
Module UserInfo.
Record t := mk {
  _id : string;
  username : string;
  email : string;
  full_name : string;
  links : list MeshLink.t;
}.
End UserInfo.

(** What the function reads of the CoreSettings row. *)
Module MeshSettings.
Record t := mk { sync_mesh_with_trmm : bool; mesh_company_name : option string }.
End MeshSettings.

(** The calls of core.mesh_utils that change MeshCentral. *)
Inductive MeshCall :=
  | add_user_to_mesh (user_info : UserInfo.t)
  | add_agent_to_user (user_id node_id hostname : string)
  | remove_agent_from_user (user_id node_id : string)
  | update_mesh_displayname (user_info : UserInfo.t)
  | delete_user_from_mesh (mesh_user_id : string).

(** The surroundings of one run: the reply of [get_mesh_users] ([inl] is
    the message of the exception it raises, as does [get_mesh_ws_url]), the
    permission tests of accounts.utils, core.mesh_utils and
    tacticalrmm.permissions, the display name, the random strings by the
    number of the call, and the call to MeshCentral that raises, if one
    does, counted from 0, with its message. *)
Record MeshEnv := mkMeshEnv {
  get_mesh_users : string + list MeshUser.t;
  has_mesh_perms : User.t → bool;
  is_superuser : User.t → bool;
  _has_perm_on_agent : User.t → string → bool;
  build_mesh_display_name : string → string → option string → string;
  make_random_password : nat → nat → string;
  mesh_failure : option (nat * string);
}.

(** A Python dict with string keys: assignment to a key that is present
    keeps its place, a new key goes to the end. *)
Fixpoint dict_set {V} (k : string) (v : V) (d : list (string * V)) : list (string * V) :=
  match d with
  | [] => [(k, v)]
  | (k', v') :: rest =>
      if bool_decide (k' = k) then (k, v) :: rest else (k', v') :: dict_set k v rest
  end.

Fixpoint dict_get {V} (k : string) (d : list (string * V)) : option V :=
  match d with
  | [] => None
  | (k', v') :: rest => if bool_decide (k' = k) then Some v' else dict_get k rest
  end.

(** Lines 396-398 *)
Definition mesh_users_dict (mesh_users_raw : list MeshUser.t) : list (string * MeshUser.t) :=
  foldl (λ d i, dict_set (MeshUser._id i) i d) []
    (filter (λ i, mesh_id_matches (MeshUser._id i) = true) mesh_users_raw).

(** Lines 400-405 *)
Definition in_user_query (u : User.t) : bool :=
  bool_decide (User.agent u = None)
  && negb (User.is_installer_user u)
  && User.is_active u
  && negb (User.block_dashboard_login u).

Definition may_access (env : MeshEnv) (user : User.t) (a : MeshAgent.t) : bool :=
  User.is_superuser user || is_superuser env user
  || _has_perm_on_agent env user (MeshAgent.agent_id a).

Definition link_of (a : MeshAgent.t) : MeshLink.t :=
  MeshLink.mk ("node//" +:+ MeshAgent.hex_mesh_node_id a) (MeshAgent.hostname a).

(** Lines 414-431 *)
Definition trmm_agents (env : MeshEnv) (agents : list MeshAgent.t) (user : User.t)
  : list MeshLink.t :=
  if User.is_superuser user || is_superuser env user
  then link_of <$> agents
  else link_of <$> filter (λ a, _has_perm_on_agent env user (MeshAgent.agent_id a) = true)
                     agents.

(** Lines 433-451; [n] counts the calls of [make_random_password] made
    before. *)
Definition user_info (env : MeshEnv) (company_name : option string) (n : nat)
    (user : User.t) (links : list MeshLink.t) : UserInfo.t :=
  let full_name :=
    build_mesh_display_name env (User.first_name user) (User.last_name user) company_name in
  let rand_str1 := make_random_password env n 6 in
  let rand_str2 := make_random_password env (S n) 5 in
  UserInfo.mk (User.mesh_user_id user) (User.mesh_username user)
    (User.username user +:+ "." +:+ rand_str1 +:+ "@tacticalrmm-do-not-change-"
     +:+ rand_str2 +:+ ".local")
    full_name links.

(** Lines 456-464 *)
Definition new_user_calls (info : UserInfo.t) : list MeshCall :=
  add_user_to_mesh info
  :: ((λ l, add_agent_to_user (UserInfo._id info) (MeshLink.node_id l) (MeshLink.hostname l))
      <$> UserInfo.links info).

(** Lines 465-497 *)
Definition existing_user_calls (existing_mesh_user : MeshUser.t) (info : UserInfo.t)
  : list MeshCall :=
  let mesh_agents_dict := default [] (MeshUser.links existing_mesh_user) in
  let trmm_agent_ids := MeshLink.node_id <$> UserInfo.links info in
  ((λ l, add_agent_to_user (UserInfo._id info) (MeshLink.node_id l) (MeshLink.hostname l))
   <$> filter (λ l, MeshLink.node_id l ∉ mesh_agents_dict) (UserInfo.links info))
  ++ (remove_agent_from_user (UserInfo._id info)
      <$> filter (λ m, m ∉ trmm_agent_ids) mesh_agents_dict)
  ++ match MeshUser.realname existing_mesh_user with
     | None => [update_mesh_displayname info]
     | Some mesh_displayname =>
         if bool_decide (mesh_displayname ≠ UserInfo.full_name info)
         then [update_mesh_displayname info] else []
     end.

(** The body of the loop over the users for one user that has mesh
    perms. *)
Definition user_calls (env : MeshEnv) (company_name : option string)
    (dict : list (string * MeshUser.t)) (agents : list MeshAgent.t) (n : nat)
    (user : User.t) : list MeshCall :=
  let info := user_info env company_name n user (trmm_agents env agents user) in
  match dict_get (User.mesh_user_id user) dict with
  | None => new_user_calls info
  | Some existing_mesh_user => existing_user_calls existing_mesh_user info
  end.

(** Lines 409-497: [trmm_user_ids] and the calls, in order. *)
Fixpoint user_loop (env : MeshEnv) (company_name : option string)
    (dict : list (string * MeshUser.t)) (agents : list MeshAgent.t)
    (users : list User.t) (n : nat) : list string * list MeshCall :=
  match users with
  | [] => ([], [])
  | user :: rest =>
      if negb (has_mesh_perms env user)
      then user_loop env company_name dict agents rest n
      else
        let '(ids, calls) := user_loop env company_name dict agents rest (n + 2) in
        (User.mesh_user_id user :: ids,
         (user_calls env company_name dict agents n user ++ calls)%list)
  end.

(** Lines 393-502 when no call raises. *)
Definition mesh_plan (env : MeshEnv) (core : MeshSettings.t)
    (mesh_users_raw : list MeshUser.t) (all_users : list User.t)
    (agents : list MeshAgent.t) : list MeshCall :=
  let dict := mesh_users_dict mesh_users_raw in
  let users := filter (λ u, in_user_query u = true) all_users in
  let '(trmm_user_ids, calls) :=
    user_loop env (MeshSettings.mesh_company_name core) dict agents users 0 in
  (calls
   ++ (delete_user_from_mesh
       <$> filter (λ mesh_user_id, mesh_user_id ∉ trmm_user_ids) (fst <$> dict)))%list.

(** The [try] block: the calls made before the one that raises, and what
    [logger.error] gets. *)
Definition run_calls (env : MeshEnv) (plan : list MeshCall) : list MeshCall * list string :=
  match mesh_failure env with
  | Some (n, msg) => if n <? length plan then (take n plan, [msg]) else (plan, [])
  | None => (plan, [])
  end.

(** What a run returns and leaves behind; [None] is Python's None. *)
Record MeshRun := mkMeshRun {
  returned : option string;
  locks_after : gmap string string;
  mesh_calls : list MeshCall;
  error_log : list string;
}.

(** [core] is the row [CoreSettings.objects.first()], which exists. *)
Definition sync_mesh_perms_task (env : MeshEnv) (oid : string) (core : MeshSettings.t)
    (all_users : list User.t) (agents : list MeshAgent.t) (locks : gmap string string)
  : MeshRun :=
  match locks !! SYNC_MESH_PERMS_TASK_LOCK with
  | Some _ => mkMeshRun (Some (oid +:+ " still running")) locks [] []
  | None =>
      let locked := <[SYNC_MESH_PERMS_TASK_LOCK := oid]> locks in
      let unlocked := delete SYNC_MESH_PERMS_TASK_LOCK locked in
      if negb (MeshSettings.sync_mesh_with_trmm core) then mkMeshRun None unlocked [] []
      else
        match get_mesh_users env with
        | inl msg => mkMeshRun None unlocked [] [msg]
        | inr mesh_users_raw =>
            let '(calls, log) :=
              run_calls env (mesh_plan env core mesh_users_raw all_users agents) in
            mkMeshRun None unlocked calls log
        end
  end.

(** A user the loop synchronises. *)
Definition synced_user (env : MeshEnv) (u : User.t) : bool :=
  in_user_query u && has_mesh_perms env u.

(** Users, agents and MeshCentral accounts to run the function on. *)
Module Mesh.
Definition alice : User.t :=
  User.mk "alice" "Alice" "A" true "user//alice___1" "alice___1" None false true false.
Definition bob : User.t :=
  User.mk "bob" "Bob" "B" false "user//bob___2" "bob___2" None false true false.
Definition carol : User.t :=
  User.mk "carol" "Carol" "C" false "user//carol___3" "carol___3" None false false false.
Definition pc1 : MeshAgent.t := MeshAgent.mk "agent-1" "pc1" "AAAA".
Definition pc2 : MeshAgent.t := MeshAgent.mk "agent-2" "pc2" "BBBB".
Definition raw : list MeshUser.t :=
  [MeshUser.mk "user//admin" None (Some "Admin");
   MeshUser.mk "user//bob___2" (Some ["node//AAAA"; "node//BBBB"]) (Some "Bob B");
   MeshUser.mk "user//dave___4" (Some ["node//AAAA"]) None].
Definition env : MeshEnv :=
  mkMeshEnv (inr raw) (λ _, true) (λ _, false)
    (λ u aid, bool_decide (aid = "agent-1"))
    (λ first last _, first +:+ " " +:+ last)
    (λ n len, "x") None.
Definition core : MeshSettings.t := MeshSettings.mk true None.
Definition run : MeshRun :=
  sync_mesh_perms_task env "celery@worker1" core [alice; bob; carol] [pc1; pc2] ∅.
End Mesh.

(** * Properties *)

Ltac unfold_result := unfold mbind, Result_bind, ret, raise in *.

Section collect_facts.
Context {A B : Type} (f : A → Result (list B)).

Lemma collect_elem (l : list A) (out : list B) (x : B) :
  collect f l = inr out →
  x ∈ out ↔ ∃ a ys, a ∈ l ∧ f a = inr ys ∧ x ∈ ys.
Proof.
  revert out. induction l as [|a l IH]; intros out Hc; simpl in Hc; unfold_result.
  - inversion Hc; subst. split.
    + intros Hx. inversion Hx.
    + intros (a & ys & Ha & _). inversion Ha.
  - destruct (f a) as [e|ys] eqn:Hfa; [discriminate|].
    destruct (collect f l) as [e|zs] eqn:Hl; [discriminate|].
    inversion Hc; subst. rewrite elem_of_app, (IH zs eq_refl). split.
    + intros [Hx|(a' & ys' & Ha' & Hf & Hx)].
      * exists a, ys. rewrite elem_of_cons. auto.
      * exists a', ys'. rewrite elem_of_cons. auto.
    + intros (a' & ys' & Ha' & Hf & Hx). apply elem_of_cons in Ha' as [->|Ha'].
      * left. congruence.
      * right. eauto.
Qed.

End collect_facts.

Lemma parse_1_6_0 : parse_version "1.6.0" = inr [1; 6; 0]%N.
Proof. reflexivity. Qed.



















(** C6: when the lock is held, the invocation answers
    "<owner> still running" and leaves the world as it found it: the trace
    gains no agent query, no remote call and no write, and the store and
    the lock are unchanged. *)
Theorem lock_held_returns_still_running env oid sched w :
  is_Some (cache w !! SYNC_SCHED_TASK_LOCK) →
  sync_scheduled_tasks env oid sched w = (inr (oid +:+ " still running"), w).
Proof.
  intros [holder H]. unfold sync_scheduled_tasks, try_acquire. by rewrite H.
Qed.

Lemma lock_held_returns_still_running_witness :
  sync_scheduled_tasks (Fleet.env "ok") "celery@worker1" [] Fleet.world_locked
  = (inr "celery@worker1 still running", Fleet.world_locked).
Proof.
  apply (lock_held_returns_still_running (Fleet.env "ok") "celery@worker1" []
           Fleet.world_locked).
  vm_compute. eauto.
Defined.

(** ** The handler after the reply *)



(** What [asave] may do to the world, whether it raises or not. *)
Lemma asave_cases env tr w :
  let k := (TaskResult.agent tr, TaskResult.task tr) in
  let v := TaskResult.sync_status tr in
  (∃ row, taskresults (db w) !! k = Some row
     ∧ TaskResult.id row = TaskResult.id tr
     ∧ db_error env (trace w) = false
     ∧ asave_sync_status env tr w =
         (None,
          emit (EvSave (TaskResult.id tr) ["sync_status"] v None)
            (set_db (set_taskresults
                       (alter (TaskResult.set_sync_status v) k (taskresults (db w)))
                       (db w)) w)))
  ∨ asave_sync_status env tr w =
      (Some DatabaseError,
       emit (EvSave (TaskResult.id tr) ["sync_status"] v (Some DatabaseError)) w).
Proof.
  intros k v. unfold asave_sync_status. fold k v.
  destruct (db_error env (trace w)) eqn:Hdb; simpl; [by right|].
  destruct (taskresults (db w) !! k) as [row|] eqn:Hrow; [|by right].
  case_bool_decide as Hid; [|by right].
  left. exists row. by rewrite ?Hdb.
Qed.


Lemma set_sync_status_same row :
  TaskResult.set_sync_status (TaskResult.sync_status row) row = row.
Proof. by destruct row. Qed.

(** The save touches one column. *)
Lemma set_sync_status_fields v row :
  let row' := TaskResult.set_sync_status v row in
  TaskResult.id row' = TaskResult.id row
  ∧ TaskResult.agent row' = TaskResult.agent row
  ∧ TaskResult.task row' = TaskResult.task row
  ∧ TaskResult.retcode row' = TaskResult.retcode row
  ∧ TaskResult.stdout row' = TaskResult.stdout row
  ∧ TaskResult.sync_status row' = v.
Proof. by destruct row. Qed.


(** Lines 265-280: what the branch writes and what it leaves alone. *)
Lemma create_modify_frame env it task tr r w :
  ∃ c w' l v raised,
    create_modify_branch env it task tr r w = (c, w')
    ∧ trace w' = (trace w ++ [EvLog l; EvSave (TaskResult.id tr) ["sync_status"] v raised])%list
    ∧ agents (db w') = agents (db w)
    ∧ autotasks (db w') = autotasks (db w)
    ∧ next_pk (db w') = next_pk (db w)
    ∧ cache w' = cache w
    ∧ (∀ k, k ≠ (TaskResult.agent tr, TaskResult.task tr) →
            taskresults (db w') !! k = taskresults (db w) !! k)
    ∧ (∀ row, taskresults (db w) !! (TaskResult.agent tr, TaskResult.task tr) = Some row →
         ∃ row', taskresults (db w') !! (TaskResult.agent tr, TaskResult.task tr) = Some row'
           ∧ TaskResult.id row' = TaskResult.id row
           ∧ TaskResult.agent row' = TaskResult.agent row
           ∧ TaskResult.task row' = TaskResult.task row
           ∧ TaskResult.retcode row' = TaskResult.retcode row
           ∧ TaskResult.stdout row' = TaskResult.stdout row)
    ∧ (taskresults (db w) !! (TaskResult.agent tr, TaskResult.task tr) = None →
       taskresults (db w') !! (TaskResult.agent tr, TaskResult.task tr) = None).
Proof.
  unfold create_modify_branch.
  set (st := if negb (String.eqb r "ok") then _ else _).
  assert (∃ tr1 l, st = (tr1, emit (EvLog l) w)
                   ∧ TaskResult.agent tr1 = TaskResult.agent tr
                   ∧ TaskResult.task tr1 = TaskResult.task tr
                   ∧ TaskResult.id tr1 = TaskResult.id tr) as (tr1 & l & -> & Ha & Ht & Hi).
  { subst st. destruct (negb _); eexists _, _; (split; [reflexivity|]);
      by destruct tr. }
  destruct (asave_cases env tr1 (emit (EvLog l) w)) as [(row & Hrow & Hid & Hdb & ->)| ->];
    rewrite ?Ha, ?Ht, ?Hi in *; simpl in *.
  - eexists _, _, l, _, None. split; [reflexivity|]. simpl.
    rewrite <- app_assoc. repeat (split; [done|]). split; [|split].
    + intros k Hk. by rewrite lookup_alter_ne.
    + intros row0 Hrow0. rewrite lookup_alter_eq, Hrow0. simpl.
      eexists. split; [reflexivity|]. by destruct row0.
    + intros Hnone. congruence.
  - eexists _, _, l, _, (Some DatabaseError). split; [reflexivity|]. simpl.
    rewrite <- app_assoc. repeat (split; [done|]). split.
    + intros row0 Hrow0. exists row0. done.
    + done.
Qed.

(** ** The delete branch *)

Lemma prefix_cons c n d h :
  String.prefix (String c n) (String d h)
  = if Ascii.ascii_dec c d then String.prefix n h else false.
Proof. reflexivity. Qed.

Lemma append_cons c n post : String c n +:+ post = String c (n +:+ post).
Proof. reflexivity. Qed.

Lemma prefix_app (n h : string) :
  String.prefix n h = true ↔ ∃ post, h = n +:+ post.
Proof.
  revert h. induction n as [|c n IH]; intros h.
  - split; [intros _; exists h; reflexivity | intros _; by destruct h].
  - destruct h as [|d h].
    { split; [discriminate | intros [post Hp]; discriminate]. }
    rewrite prefix_cons. destruct (Ascii.ascii_dec c d) as [->|Hne].
    + rewrite IH. split; intros [post Hp]; exists post.
      * rewrite append_cons. congruence.
      * rewrite append_cons in Hp. congruence.
    + split; [discriminate|]. intros [post Hp].
      rewrite append_cons in Hp. congruence.
Qed.

Lemma str_contains_cons n d h :
  str_contains n (String d h) = String.prefix n (String d h) || str_contains n h.
Proof. reflexivity. Qed.

(** [str_contains] is the substring test. *)
Lemma str_contains_spec (n h : string) :
  str_contains n h = true ↔ ∃ pre post, h = pre +:+ n +:+ post.
Proof.
  induction h as [|d h IH].
  - change (str_contains n "") with (String.prefix n "" || false).
    rewrite orb_false_r, prefix_app. split.
    + intros [post Hp]. by exists "", post.
    + intros (pre & post & Hp). destruct pre; [eauto|discriminate].
  - rewrite str_contains_cons, orb_true_iff, prefix_app, IH. split.
    + intros [[post Hp]|(pre & post & Hp)].
      * by exists "", post.
      * exists (String d pre), post. rewrite append_cons. by rewrite Hp.
    + intros (pre & post & Hp). destruct pre as [|c pre].
      * left. eauto.
      * right. exists pre, post. rewrite append_cons in Hp. congruence.
Qed.

Lemma delete_is_not_create_or_modify : is_create_or_modify "delete" = false.
Proof. reflexivity. Qed.

(** C4, as the code has it: for a delete item, a reply "ok" or a reply
    that contains "The system cannot find the file specified" makes the
    coroutine delete the task and return; after it the store holds neither
    the Task nor any TaskResult of that task. *)
Theorem delete_success_removes_task env it task tr r w :
  Item.action it = "delete" →
  r = "ok" ∨ str_contains "The system cannot find the file specified" r = true →
  ∃ w',
    step env it (AwaitStore task tr r) w = (Returned, w')
    ∧ autotasks (db w') !! AutomatedTask.id task = None
    ∧ (∀ a, taskresults (db w') !! (a, AutomatedTask.id task) = None)
    ∧ EvDeleteTask (AutomatedTask.id task) ∈ trace w'.
Proof.
  intros Hact Hr. simpl. rewrite Hact, delete_is_not_create_or_modify.
  unfold delete_branch.
  assert (negb (String.eqb r "ok")
          && negb (str_contains "The system cannot find the file specified" r) = false)
    as ->.
  { destruct Hr as [->| ->]; [reflexivity|]. by rewrite andb_false_r. }
  eexists; split; [reflexivity|]. simpl. split; [|split].
  - apply lookup_delete_eq.
  - intros a. apply map_lookup_filter_None. right. intros x _ Hx. by apply Hx.
  - rewrite !elem_of_app. left. right. apply list_elem_of_singleton. reflexivity.
Qed.


(** ** The coroutine from its first line to the reply *)

Lemma run_coro_finished env n it c w : finished c = true → run_coro env n it c w = (c, w).
Proof. intros H. destruct n; simpl; [done|]. by rewrite H. Qed.

Lemma run_coro_step env n it c w c' w' :
  finished c = false →
  step env it c w = (c', w') →
  run_coro env (S n) it c w = run_coro env n it c' w'.
Proof. intros H Hs. simpl. by rewrite H, Hs. Qed.

Lemma step_task env it task w :
  autotasks (db w) !! Item.task_id it = Some task →
  step env it AwaitTask w = (AwaitResult task, emit (EvGetTask (Item.task_id it)) w).
Proof. intros H. simpl. unfold aget_task. by rewrite H. Qed.

Lemma step_result_found env it task row w :
  taskresults (db w) !! (Item.agent it, AutomatedTask.id task) = Some row →
  step env it (AwaitResult task) w
  = (AwaitNats task row, emit (EvGetResult (Item.agent it) (AutomatedTask.id task)) w).
Proof. intros H. simpl. unfold aget_result. by rewrite H. Qed.

Lemma step_result_missing env it task w :
  taskresults (db w) !! (Item.agent it, AutomatedTask.id task) = None →
  step env it (AwaitResult task) w
  = (AwaitCreate task, emit (EvGetResult (Item.agent it) (AutomatedTask.id task)) w).
Proof. intros H. simpl. unfold aget_result. by rewrite H. Qed.

Lemma step_create env it task t0 w :
  taskresults (db w) !! (Item.agent it, AutomatedTask.id task) = None →
  autotasks (db w) !! AutomatedTask.id task = Some t0 →
  step env it (AwaitCreate task) w
  = (AwaitNats task (TaskResult.fresh (next_pk (db w)) (Item.agent it) (AutomatedTask.id task)),
     set_db (mkStore (agents (db w)) (autotasks (db w))
               (<[(Item.agent it, AutomatedTask.id task) :=
                    TaskResult.fresh (next_pk (db w)) (Item.agent it) (AutomatedTask.id task)]>
                  (taskresults (db w)))
               (S (next_pk (db w))))
       (emit (EvCreateResult (Item.agent it) (AutomatedTask.id task)) w)).
Proof. intros H1 H2. simpl. unfold acreate_result. by rewrite H1, H2. Qed.

Lemma step_nats env it task tr w :
  ∃ r w1,
    step env it (AwaitNats task tr) w = (AwaitStore task tr r, w1)
    ∧ db w1 = db w ∧ cache w1 = cache w
    ∧ trace w1 = (trace w
        ++ (if is_create_or_modify (Item.action it)
            then [EvLog (LogDebug (Item.payload it))] else [])
        ++ [EvNatsCmd (Item.agent_id it) (nats_data it task) 10 r])%list.
Proof.
  simpl. unfold nats_request. eexists _, _. split; [reflexivity|].
  destruct (is_create_or_modify _); simpl; rewrite <- ?app_assoc; done.
Qed.

Tactic Notation "coro_step" uconstr(H) :=
  erewrite run_coro_step by first [refine H | reflexivity].

Lemma store_step_finished env it task tr r w :
  finished (step env it (AwaitStore task tr r) w).1 = true.
Proof.
  simpl. destruct (is_create_or_modify _).
  - unfold create_modify_branch.
    destruct (negb _); destruct (asave_sync_status _ _ _) as [[e|] w2]; reflexivity.
  - unfold delete_branch. destruct (_ && _); reflexivity.
Qed.

Lemma handler_reaches_the_reply env it task w :
  autotasks (db w) !! Item.task_id it = Some task →
  AutomatedTask.id task = Item.task_id it →
  ∃ tr r w1,
    _handle_task_on_agent env it w = step env it (AwaitStore task tr r) w1
    ∧ taskresults (db w1) !! (Item.agent it, Item.task_id it) = Some tr
    ∧ last (trace w1) = Some (EvNatsCmd (Item.agent_id it) (nats_data it task) 10 r)
    ∧ agents (db w1) = agents (db w)
    ∧ autotasks (db w1) = autotasks (db w)
    ∧ (∀ k, k ≠ (Item.agent it, Item.task_id it) →
            taskresults (db w1) !! k = taskresults (db w) !! k)
    ∧ match taskresults (db w) !! (Item.agent it, Item.task_id it) with
      | Some row => tr = row
      | None => tr = TaskResult.fresh (next_pk (db w)) (Item.agent it) (Item.task_id it)
      end.
Proof.
  intros Htask Hid. unfold _handle_task_on_agent.
  coro_step (step_task env it task w Htask).
  set (w0 := emit _ w).
  destruct (taskresults (db w) !! (Item.agent it, Item.task_id it)) as [row|] eqn:Hrow.
  - assert (taskresults (db w0) !! (Item.agent it, AutomatedTask.id task) = Some row)
      as H0 by (by rewrite Hid).
    coro_step (step_result_found env it task row w0 H0).
    destruct (step_nats env it task row (emit (EvGetResult (Item.agent it) (AutomatedTask.id task)) w0))
      as (r & w1 & Hs & Hdb & _ & Htr).
    coro_step Hs.
    exists row, r, w1. split.
    { pose proof (store_step_finished env it task row r w1) as Hf.
      destruct (step env it (AwaitStore task row r) w1) as [c w2] eqn:Hst.
      coro_step Hst. by apply run_coro_finished. }
    split; [by rewrite Hdb|]. split; [by rewrite Htr, !app_assoc, last_snoc|].
    rewrite Hdb. done.
  - assert (taskresults (db w0) !! (Item.agent it, AutomatedTask.id task) = None)
      as H0 by (by rewrite Hid).
    coro_step (step_result_missing env it task w0 H0).
    set (w0' := emit _ w0).
    assert (autotasks (db w0') !! AutomatedTask.id task = Some task)
      as H1 by (by rewrite Hid).
    coro_step (step_create env it task task w0' H0 H1).
    match goal with |- context [run_coro _ 2 _ (AwaitNats _ ?tr) ?wc] =>
      destruct (step_nats env it task tr wc) as (r & w1 & Hs & Hdb & _ & Htr);
      coro_step Hs; exists tr, r, w1
    end.
    split.
    { match goal with |- context [step _ _ (AwaitStore _ ?tr _) _] =>
        pose proof (store_step_finished env it task tr r w1) as Hf;
        destruct (step env it (AwaitStore task tr r) w1) as [c w2] eqn:Hst
      end.
      coro_step Hst. by apply run_coro_finished. }
    split; [by rewrite Hdb; simpl; rewrite Hid, lookup_insert_eq|].
    split; [by rewrite Htr, !app_assoc, last_snoc|].
    rewrite Hdb. simpl. rewrite Hid.
    repeat split; try done. intros k Hk. by rewrite lookup_insert_ne.
Qed.



(** The in-memory TaskResult after lines 265-278 is the fetched one with
    another sync-status. *)
Lemma create_modify_branch_save env it task tr r w :
  ∃ v l,
    create_modify_branch env it task tr r w =
      match asave_sync_status env (TaskResult.set_sync_status v tr) (emit (EvLog l) w) with
      | (None, w2) => (Returned, w2)
      | (Some e, w2) => (Raised e, w2)
      end.
Proof.
  unfold create_modify_branch. destruct (negb (String.eqb r "ok")); eauto.
Qed.

Lemma asave_frame env tr w :
  let w' := (asave_sync_status env tr w).2 in
  let k := (TaskResult.agent tr, TaskResult.task tr) in
  agents (db w') = agents (db w)
  ∧ autotasks (db w') = autotasks (db w)
  ∧ (∀ k', k' ≠ k → taskresults (db w') !! k' = taskresults (db w) !! k')
  ∧ (∀ row, taskresults (db w) !! k = Some row →
       ∃ v, taskresults (db w') !! k = Some (TaskResult.set_sync_status v row)).
Proof.
  intros w' k. subst w'.
  destruct (asave_cases env tr w) as [(row & Hrow & Hid & Hdb & ->)| ->]; simpl.
  - repeat split; try done.
    + intros k' Hk'. by rewrite lookup_alter_ne.
    + intros row0 Hrow0. exists (TaskResult.sync_status tr).
      fold k. by rewrite lookup_alter_eq, Hrow0.
  - repeat split; try done. intros row0 Hrow0.
    exists (TaskResult.sync_status row0). fold k. by rewrite set_sync_status_same.
Qed.

(** The whole coroutine of a create or modify item, run alone on a
    well-formed store: it leaves the agents and the tasks as they are and
    every TaskResult row of another pair as it is; a row the pair already
    had keeps every column but sync_status. *)
Lemma handler_create_modify_frame env it w :
  wf_store (db w) →
  is_create_or_modify (Item.action it) = true →
  let w' := (_handle_task_on_agent env it w).2 in
  agents (db w') = agents (db w)
  ∧ autotasks (db w') = autotasks (db w)
  ∧ (∀ k, k ≠ (Item.agent it, Item.task_id it) →
          taskresults (db w') !! k = taskresults (db w) !! k)
  ∧ (∀ row, taskresults (db w) !! (Item.agent it, Item.task_id it) = Some row →
       ∃ v, taskresults (db w') !! (Item.agent it, Item.task_id it)
            = Some (TaskResult.set_sync_status v row)).
Proof.
  intros [Hwt Hwr] Hact w'. subst w'.
  destruct (autotasks (db w) !! Item.task_id it) as [task|] eqn:Htask.
  - pose proof (Hwt _ _ Htask) as Hid.
    destruct (handler_reaches_the_reply env it task w Htask Hid)
      as (tr & r & w1 & -> & Htr & _ & Hag & Hau & Hother & Hfrom).
    simpl. rewrite Hact.
    destruct (create_modify_branch_save env it task tr r w1) as (v & l & ->).
    assert ((TaskResult.agent tr, TaskResult.task tr) = (Item.agent it, Item.task_id it))
      as Hkey.
    { destruct (taskresults (db w) !! (Item.agent it, Item.task_id it)) as [row|] eqn:Hrow.
      - subst tr. by apply Hwr.
      - by subst tr. }
    pose proof (asave_frame env (TaskResult.set_sync_status v tr) (emit (EvLog l) w1))
      as (Ha & Ht & Ho & Hr).
    assert (TaskResult.agent (TaskResult.set_sync_status v tr) = TaskResult.agent tr
            ∧ TaskResult.task (TaskResult.set_sync_status v tr) = TaskResult.task tr)
      as [E1 E2] by (by destruct tr).
    rewrite E1, E2, Hkey in Ho, Hr. clear E1 E2.
    destruct (asave_sync_status _ _ _) as [[e|] w2]; simpl in *.
    + rewrite Ha, Ht, Hag, Hau. repeat split; try done.
      * intros k Hk. by rewrite Ho, Hother.
      * intros row Hrow. rewrite Hrow in Hfrom. subst tr. destruct (Hr _ Htr) as [v0 Hv0]. eauto.
    + rewrite Ha, Ht, Hag, Hau. repeat split; try done.
      * intros k Hk. by rewrite Ho, Hother.
      * intros row Hrow. rewrite Hrow in Hfrom. subst tr. destruct (Hr _ Htr) as [v0 Hv0]. eauto.
  - unfold _handle_task_on_agent. simpl. unfold aget_task. rewrite Htask. simpl.
    repeat split; try done. intros row Hrow. exists (TaskResult.sync_status row).
    by rewrite set_sync_status_same.
Qed.

Lemma nats_step_no_write env it task tr w :
  db (step env it (AwaitNats task tr) w).2 = db w
  ∧ cache (step env it (AwaitNats task tr) w).2 = cache w.
Proof.
  destruct (step_nats env it task tr w) as (r & w1 & -> & Hdb & Hc & _). done.
Qed.

(** C10: on the create/modify path the request of lines 257-264 writes
    nothing, and lines 265-280 add to the trace one log record and one save
    restricted to sync_status, and nothing else: the agents, the tasks and
    the primary-key counter are unchanged, every TaskResult row is unchanged
    except, at most, the row of the item's TaskResult, of which every column
    but sync_status is unchanged.  For the whole coroutine of the item, on a
    well-formed store: agents and tasks are unchanged, the rows of other
    pairs are unchanged, and a row the pair already had keeps every column
    but sync_status. *)
Theorem create_modify_writes_only_sync_status :
  (∀ env it task tr w,
      db (step env it (AwaitNats task tr) w).2 = db w
      ∧ cache (step env it (AwaitNats task tr) w).2 = cache w)
  ∧ (∀ env it task tr r w,
      ∃ c w' l v raised,
        create_modify_branch env it task tr r w = (c, w')
        ∧ trace w' = (trace w ++ [EvLog l; EvSave (TaskResult.id tr) ["sync_status"] v raised])%list
        ∧ agents (db w') = agents (db w)
        ∧ autotasks (db w') = autotasks (db w)
        ∧ next_pk (db w') = next_pk (db w)
        ∧ cache w' = cache w
        ∧ (∀ k, k ≠ (TaskResult.agent tr, TaskResult.task tr) →
                taskresults (db w') !! k = taskresults (db w) !! k)
        ∧ (∀ row, taskresults (db w) !! (TaskResult.agent tr, TaskResult.task tr) = Some row →
             ∃ row', taskresults (db w') !! (TaskResult.agent tr, TaskResult.task tr) = Some row'
               ∧ TaskResult.id row' = TaskResult.id row
               ∧ TaskResult.agent row' = TaskResult.agent row
               ∧ TaskResult.task row' = TaskResult.task row
               ∧ TaskResult.retcode row' = TaskResult.retcode row
               ∧ TaskResult.stdout row' = TaskResult.stdout row)
        ∧ (taskresults (db w) !! (TaskResult.agent tr, TaskResult.task tr) = None →
           taskresults (db w') !! (TaskResult.agent tr, TaskResult.task tr) = None))
  ∧ (∀ env it w,
      wf_store (db w) →
      is_create_or_modify (Item.action it) = true →
      agents (db (_handle_task_on_agent env it w).2) = agents (db w)
      ∧ autotasks (db (_handle_task_on_agent env it w).2) = autotasks (db w)
      ∧ (∀ k, k ≠ (Item.agent it, Item.task_id it) →
              taskresults (db (_handle_task_on_agent env it w).2) !! k
              = taskresults (db w) !! k)
      ∧ (∀ row, taskresults (db w) !! (Item.agent it, Item.task_id it) = Some row →
           ∃ v, taskresults (db (_handle_task_on_agent env it w).2)
                  !! (Item.agent it, Item.task_id it)
                = Some (TaskResult.set_sync_status v row))).
Proof.
  split; [|split].
  - apply nats_step_no_write.
  - apply create_modify_frame.
  - intros env it w Hwf Hact. by apply handler_create_modify_frame.
Qed.



(** ** [gather] *)

Lemma remaining_finished c : remaining c = 0 ↔ finished c = true.
Proof. destruct c; simpl; split; intros; congruence. Qed.

Lemma remaining_le c : remaining c ≤ 5.
Proof. destruct c; simpl; lia. Qed.

Lemma step_progress env it c w :
  finished c = false → remaining (step env it c w).1 < remaining c.
Proof.
  intros Hf. destruct c; try discriminate; simpl.
  - unfold aget_task. destruct (autotasks (db w) !! _); simpl; lia.
  - destruct (taskresults (db w) !! _); simpl; lia.
  - unfold acreate_result.
    destruct (taskresults (db w) !! _); [simpl; lia|].
    destruct (autotasks (db w) !! _); simpl; lia.
  - lia.
  - pose proof (store_step_finished env it task task_result r w) as H.
    apply remaining_finished in H. simpl in H. lia.
Qed.

(** [step] never cancels. *)
Lemma step_not_cancelled env it c w :
  c ≠ Cancelled → (step env it c w).1 ≠ Cancelled.
Proof.
  intros Hc. destruct c; try done; simpl.
  - unfold aget_task. by destruct (autotasks (db w) !! _).
  - by destruct (taskresults (db w) !! _).
  - unfold acreate_result.
    destruct (taskresults (db w) !! _); [done|].
    by destruct (autotasks (db w) !! _).
  - destruct (is_create_or_modify _).
    + unfold create_modify_branch.
      by destruct (negb _); destruct (asave_sync_status _ _ _) as [[e|] w2].
    + unfold delete_branch. by destruct (_ && _).
Qed.

Lemma resumes_live env ts w ts' w' :
  resumes env ts w ts' w' →
  Forall (λ t, live t.2) ts → Forall (λ t, live t.2) ts'.
Proof.
  induction 1 as [|ts w i it c c' w1 ts' w' Hi Hf Hs Hr _ IH]; [done|].
  intros Hall. apply IH. apply Forall_insert; [done|]. split; [|done]. simpl.
  rewrite (Forall_lookup (λ t, live t.2) ts) in Hall. specialize (Hall i _ Hi) as [Hc _].
  pose proof (step_not_cancelled env it c w Hc) as Hn. by rewrite Hs in Hn.
Qed.

Lemma resumes_trans env ts w ts1 w1 ts2 w2 :
  resumes env ts w ts1 w1 → resumes env ts1 w1 ts2 w2 → resumes env ts w ts2 w2.
Proof.
  induction 1; [done|]. intros Hnext. eapply resumes_step; eauto.
Qed.

Lemma resume_all_resumes env sched ts w exn ts' w' :
  resume_all env sched ts w = (exn, ts', w') →
  match exn with
  | None => resumes env ts w ts' w'
  | Some e =>
      ∃ ts1 w1 i it c,
        resumes env ts w ts1 w1
        ∧ ts1 !! i = Some (it, c)
        ∧ finished c = false
        ∧ step env it c w1 = (Raised e, w')
        ∧ ts' = cancel_pending (<[i := (it, Raised e)]> ts1)
  end.
Proof.
  revert ts w. induction sched as [|i sched IH]; intros ts w; simpl.
  - intros [= <- <- <-]. constructor.
  - destruct (ts !! i) as [[it c]|] eqn:Hi; [|apply IH]. simpl.
    destruct (finished c) eqn:Hf; [apply IH|].
    destruct (step env it c w) as [c' w1] eqn:Hs.
    assert ((∀ e, c' ≠ Raised e) →
            resume_all env sched (<[i:=(it, c')]> ts) w1 = (exn, ts', w') →
            match exn with
            | None => resumes env ts w ts' w'
            | Some e =>
                ∃ ts1 w2 i0 it0 c0,
                  resumes env ts w ts1 w2 ∧ ts1 !! i0 = Some (it0, c0)
                  ∧ finished c0 = false ∧ step env it0 c0 w2 = (Raised e, w')
                  ∧ ts' = cancel_pending (<[i0:=(it0, Raised e)]> ts1)
            end) as Hgo.
    { intros Hr Hrec. apply IH in Hrec. destruct exn as [e|].
      - destruct Hrec as (ts1 & w2 & i0 & it0 & c0 & Hres & Hrest).
        exists ts1, w2, i0, it0, c0. split; [|done]. eapply resumes_step; eauto.
      - eapply resumes_step; eauto. }
    destruct c'; try (apply Hgo; done).
    intros [= <- <- <-]. exists ts, w, i, it, c. split; [constructor|]. done.
Qed.

Lemma resume_all_progress env sched ts w ts' w' :
  resume_all env sched ts w = (None, ts', w') →
  ∀ i t, ts !! i = Some t →
    ∃ t', ts' !! i = Some t'
      ∧ remaining t'.2 ≤ remaining t.2 - length (filter (λ j, j = i) sched).
Proof.
  revert ts w. induction sched as [|j sched IH]; intros ts w; simpl.
  - intros [= <- <-] i t Hi. exists t. split; [done|]. simpl. lia.
  - intros Hrun i t Hi.
    destruct (ts !! j) as [[it c]|] eqn:Hj; simpl in Hrun.
    + destruct (finished c) eqn:Hf.
      * destruct (IH _ _ Hrun i t Hi) as (t' & Ht' & Hle). exists t'. split; [done|].
        rewrite filter_cons. case_decide as Hji; simpl; [|done].
        subst j. rewrite Hi in Hj. injection Hj as ->. simpl in *.
        apply remaining_finished in Hf. lia.
      * pose proof (step_progress env it c w Hf) as Hp.
        destruct (step env it c w) as [c' w1] eqn:Hs. simpl in Hp.
        assert (resume_all env sched (<[j:=(it, c')]> ts) w1 = (None, ts', w')) as Hrec.
        { destruct c'; try done. }
        rewrite filter_cons. case_decide as Hji; simpl.
        -- subst j. rewrite Hi in Hj. injection Hj as ->. simpl in *.
           destruct (IH _ _ Hrec i (it, c')) as (t' & Ht' & Hle).
           { apply list_lookup_insert_eq. by eapply lookup_lt_Some. }
           exists t'. split; [done|]. simpl in *. lia.
        -- apply IH with (i := i) (t := t) in Hrec; [done|].
           by rewrite list_lookup_insert_ne.
    + destruct (IH _ _ Hrun i t Hi) as (t' & Ht' & Hle). exists t'. split; [done|].
      rewrite filter_cons. case_decide as Hji; simpl; [|done].
      subst j. congruence.
Qed.

Lemma round_robin_S n : round_robin (S n) = (round_robin n ++ replicate 5 n)%list.
Proof.
  unfold round_robin. by rewrite seq_S, flat_map_app.
Qed.

Lemma round_robin_count n i :
  i < n → 5 ≤ length (filter (λ j, j = i) (round_robin n)).
Proof.
  induction n as [|n IH]; [lia|]. intros Hi.
  rewrite round_robin_S, filter_app, length_app.
  destruct (decide (i = n)) as [->|Hne].
  - simpl. rewrite !filter_cons, !decide_True by done. simpl. lia.
  - assert (i < n) as Hlt by lia. specialize (IH Hlt). lia.
Qed.

Lemma resumes_length env ts w ts' w' :
  resumes env ts w ts' w' → length ts' = length ts.
Proof.
  induction 1 as [|ts w i it c c' w1 ts' w' _ _ _ _ _ IH]; [done|].
  by rewrite IH, length_insert.
Qed.

Lemma finished_live_returned c : finished c = true → live c → c = Returned.
Proof. intros Hf [Hc Hr]. destruct c; try done. by destruct (Hr e). Qed.

(** A step that raises has written nothing. *)
Lemma raising_step_db env it c w e w' :
  finished c = false → step env it c w = (Raised e, w') → db w' = db w.
Proof.
  intros Hf. destruct c; try discriminate; simpl.
  - unfold aget_task. destruct (autotasks (db w) !! _); [discriminate|].
    by intros [= <- <-].
  - destruct (taskresults (db w) !! _); discriminate.
  - unfold acreate_result. destruct (taskresults (db w) !! _).
    + by intros [= <- <-].
    + destruct (autotasks (db w) !! _); [discriminate|]. by intros [= <- <-].
  - destruct (is_create_or_modify _).
    + unfold create_modify_branch.
      set (st := if negb (String.eqb r "ok") then _ else _).
      assert (∃ tr1 l, st = (tr1, emit (EvLog l) w)) as (tr1 & l & ->).
      { subst st. destruct (negb _); eauto. }
      destruct (asave_cases env tr1 (emit (EvLog l) w)) as [(row & _ & _ & _ & ->)| ->].
      * discriminate.
      * by intros [= <- <-].
    + unfold delete_branch. destruct (_ && _); discriminate.
Qed.

Lemma gather_completes env sched ts w ts' w' :
  gather env sched ts w = (None, ts', w') →
  Forall (λ t, finished t.2 = true) ts'.
Proof.
  unfold gather. intros Hrun.
  pose proof (resume_all_resumes _ _ _ _ _ _ _ Hrun) as Hres. simpl in Hres.
  apply resumes_length in Hres.
  apply Forall_lookup. intros i t' Ht'.
  assert (i < length ts) as Hi by (rewrite <- Hres; by eapply lookup_lt_Some).
  destruct (lookup_lt_is_Some_2 ts i Hi) as [t Ht].
  destruct (resume_all_progress _ _ _ _ _ _ Hrun i t Ht) as (t0 & Ht0 & Hle).
  rewrite Ht' in Ht0. injection Ht0 as <-.
  apply remaining_finished.
  rewrite filter_app, length_app in Hle.
  pose proof (round_robin_count (length ts) i Hi).
  pose proof (remaining_le t.2). lia.
Qed.

Lemma spawn_live actions : Forall (λ t, live t.2) (spawn actions).
Proof.
  apply Forall_fmap, Forall_forall. intros it _. by split.
Qed.

Lemma gather_outcome env sched actions w exn ts' w' :
  gather env sched (spawn actions) w = (exn, ts', w') →
  match exn with
  | Some e =>
      ∃ ts1 w1 i it c,
        resumes env (spawn actions) w ts1 w1
        ∧ ts1 !! i = Some (it, c)
        ∧ finished c = false
        ∧ step env it c w1 = (Raised e, w')
        ∧ db w' = db w1
        ∧ ts' = cancel_pending (<[i := (it, Raised e)]> ts1)
  | None =>
      resumes env (spawn actions) w ts' w'
      ∧ Forall (λ t, t.2 = Returned) ts'
  end.
Proof.
  intros Hrun. pose proof Hrun as Hres. unfold gather in Hres.
  apply resume_all_resumes in Hres. destruct exn as [e|].
  - destruct Hres as (ts1 & w1 & i & it & c & Hr & Hi & Hf & Hs & ->).
    exists ts1, w1, i, it, c. repeat split; try done.
    by eapply raising_step_db.
  - split; [done|].
    pose proof (gather_completes _ _ _ _ _ _ Hrun) as Hfin.
    pose proof (resumes_live _ _ _ _ _ Hres (spawn_live actions)) as Hlive.
    apply Forall_lookup. intros i t Ht.
    rewrite Forall_lookup in Hfin. rewrite Forall_lookup in Hlive.
    apply finished_live_returned; eauto.
Qed.




(** ** The payload *)

Lemma get_tasks_lookup s a tv :
  tv ∈ get_tasks_with_policies s a → ∃ k, autotasks s !! k = Some tv.1.
Proof.
  unfold get_tasks_with_policies. intros H.
  apply list_elem_of_fmap in H as (t & -> & Ht).
  apply list_elem_of_filter in Ht as [_ Ht].
  apply list_elem_of_fmap in Ht as ([k t'] & -> & Hk).
  apply elem_of_map_to_list in Hk. eauto.
Qed.

Lemma plan_task_payload env a tv ys it :
  plan_task env a tv = inr ys → it ∈ ys →
  is_create_or_modify (Item.action it) = true →
  Item.task_id it = AutomatedTask.id tv.1
  ∧ Item.payload it = generate_nats_task_payload env tv.1.
Proof.
  unfold plan_task. unfold_result.
  destruct (onboarding_unsupported a tv.1) as [e|[]]; [discriminate| |].
  - intros [= <-] Hin. inversion Hin.
  - repeat match goal with
           | |- context [if ?b then _ else _] => destruct b
           end;
      intros [= <-] Hin; try (inversion Hin; fail);
      apply list_elem_of_singleton in Hin as ->; simpl; done.
Qed.

(** C8, as the code has it: the payload of a create or modify item is the
    descriptor the planner generated from the task as it read it in the
    store at planning time, and the request the handler sends carries the
    payload of the item: it is the same whatever the task fetched at
    dispatch time and whatever the store holds by then. *)
Theorem payload_fixed_at_planning :
  (∀ env s items it,
      planner env s = inr items → it ∈ items →
      is_create_or_modify (Item.action it) = true →
      ∃ k task,
        autotasks s !! k = Some task
        ∧ Item.task_id it = AutomatedTask.id task
        ∧ Item.payload it = generate_nats_task_payload env task)
  ∧ (∀ env it task tr w,
      is_create_or_modify (Item.action it) = true →
      ∃ r w',
        step env it (AwaitNats task tr) w = (AwaitStore task tr r, w')
        ∧ db w' = db w
        ∧ trace w' = (trace w ++
            [EvLog (LogDebug (Item.payload it));
             EvNatsCmd (Item.agent_id it) (mkNatsData "schedtask" (Item.payload it)) 10 r])%list).
Proof.
  split.
  - intros env s items it Hp Hin Hact.
    apply (collect_elem _ _ _ it Hp) in Hin as (a & ys & Ha & Hpa & Hin).
    unfold plan_agent in Hpa. unfold_result.
    destruct (Agent.is_posix a); [injection Hpa as <-; inversion Hin|].
    destruct (parse_version (Agent.version a)); [discriminate|].
    rewrite parse_1_6_0 in Hpa.
    destruct (_ && _); [|injection Hpa as <-; inversion Hin].
    apply (collect_elem _ _ _ it Hpa) in Hin as (tv & zs & Htv & Hpt & Hin).
    destruct (plan_task_payload _ _ _ _ _ Hpt Hin Hact) as [Hid Hpl].
    destruct (get_tasks_lookup _ _ _ Htv) as [k Hk]. eauto.
  - intros env it task tr w Hact.
    destruct (step_nats env it task tr w) as (r & w' & Hs & Hdb & _ & Ht).
    exists r, w'. repeat split; try done.
    rewrite Ht. unfold nats_data. by rewrite Hact.
Qed.

(** ** The model on the fleet *)

(** C8 is not what the code does: an operator changes the actions of task
    7 after the plan is built; the handler fetches the changed task, and the
    request still carries the descriptor of the task as planned. *)
Lemma payload_not_regenerated_at_dispatch :
  (sync_scheduled_tasks Fleet.env_edit "celery@worker1" [] Fleet.world0).1 = inr "ok"
  ∧ autotasks (db (sync_scheduled_tasks Fleet.env_edit "celery@worker1" [] Fleet.world0).2) !! 7
    = Some Fleet.t7_edited
  ∧ remote_calls (trace (sync_scheduled_tasks Fleet.env_edit "celery@worker1" [] Fleet.world0).2)
    = [EvNatsCmd "agent-1" (mkNatsData "schedtask" (Fleet.generate Fleet.t7)) 10 "ok"]
  ∧ Fleet.generate Fleet.t7 ≠ Fleet.generate Fleet.t7_edited.
Proof.
  split; [vm_compute; reflexivity|].
  split; [vm_compute; reflexivity|].
  split; [vm_compute; reflexivity|].
  discriminate.
Qed.

(** C4 is not what the code does: the reply contains "cannot find the file
    specified" without "The system" before it; the cycle ends, and the Task
    and its TaskResult, still PENDING_DELETION, are in the store. *)
Lemma other_not_found_reply_is_a_failure :
  str_contains "cannot find the file specified" "Error: cannot find the file specified" = true
  ∧ (sync_scheduled_tasks (Fleet.env "Error: cannot find the file specified")
       "celery@worker1" [] (Fleet.world7 PENDING_DELETION)).1 = inr "ok"
  ∧ autotasks (db (sync_scheduled_tasks (Fleet.env "Error: cannot find the file specified")
       "celery@worker1" [] (Fleet.world7 PENDING_DELETION)).2) !! 7 = Some Fleet.t7
  ∧ taskresults (db (sync_scheduled_tasks (Fleet.env "Error: cannot find the file specified")
       "celery@worker1" [] (Fleet.world7 PENDING_DELETION)).2) !! (1, 7)
    = Some (Fleet.tr7 PENDING_DELETION).
Proof. repeat split; vm_compute; reflexivity. Qed.


(** C7 on a bus that is down: [_run] returns the message of the exception
    and [sync_scheduled_tasks] returns "ok". *)
Lemma connect_failure_still_returns_ok :
  (_run Fleet.env_down [] [Fleet.item7 "create"] Fleet.world0).1
    = inr (Some "nats: no servers available for connection")
  ∧ (sync_scheduled_tasks Fleet.env_down "celery@worker1" [] Fleet.world0).1 = inr "ok"
  ∧ trace (sync_scheduled_tasks Fleet.env_down "celery@worker1" [] Fleet.world0).2
    = [EvAgentQuery;
       EvConnect (Some "nats: no servers available for connection");
       EvLog (LogError "nats: no servers available for connection")].
Proof. repeat split; vm_compute; reflexivity. Qed.

(** Whatever the plan, a failed connect is answered with "ok". *)
Lemma connect_failure_returns_ok env oid sched w e items :
  cache w !! SYNC_SCHED_TASK_LOCK = None →
  nats_connect env = Some e →
  planner env (db w) = inr items →
  (∀ w1, (_run env sched items w1).1 = inr (Some e))
  ∧ (sync_scheduled_tasks env oid sched w).1 = inr "ok".
Proof.
  intros Hlock Hconn Hplan. split.
  - intros w1. unfold _run. by rewrite Hconn.
  - unfold sync_scheduled_tasks, try_acquire. rewrite Hlock. simpl. rewrite Hplan.
    unfold _run. by rewrite Hconn.
Qed.





Lemma delete_success_removes_task_witness :
  ∃ w',
    step (Fleet.env "Error: The system cannot find the file specified")
         (Fleet.item7 "delete")
         (AwaitStore Fleet.t7 (Fleet.tr7 PENDING_DELETION)
            "Error: The system cannot find the file specified")
         (Fleet.world7 PENDING_DELETION) = (Returned, w')
    ∧ autotasks (db w') !! 7 = None
    ∧ (∀ a, taskresults (db w') !! (a, 7) = None)
    ∧ EvDeleteTask 7 ∈ trace w'.
Proof.
  apply (delete_success_removes_task
           (Fleet.env "Error: The system cannot find the file specified")
           (Fleet.item7 "delete") Fleet.t7 (Fleet.tr7 PENDING_DELETION)
           "Error: The system cannot find the file specified"
           (Fleet.world7 PENDING_DELETION)).
  - reflexivity.
  - right. vm_compute. reflexivity.
Defined.


Lemma payload_fixed_at_planning_witness :
  (∃ k task,
      autotasks Fleet.store0 !! k = Some task
      ∧ Item.task_id (Fleet.item7 "create") = AutomatedTask.id task
      ∧ Item.payload (Fleet.item7 "create") = Fleet.generate task)
  ∧ (∃ r w',
      step Fleet.env_edit (Fleet.item7 "create")
           (AwaitNats Fleet.t7_edited (Fleet.tr7 INITIAL)) (Fleet.world7 INITIAL)
        = (AwaitStore Fleet.t7_edited (Fleet.tr7 INITIAL) r, w')
      ∧ db w' = Fleet.store7 INITIAL
      ∧ trace w' =
          [EvLog (LogDebug (Fleet.generate Fleet.t7));
           EvNatsCmd "agent-1" (mkNatsData "schedtask" (Fleet.generate Fleet.t7)) 10 r]).
Proof.
  split.
  - apply (proj1 payload_fixed_at_planning (Fleet.env "ok") Fleet.store0
             [Fleet.item7 "create"] (Fleet.item7 "create")).
    + vm_compute. reflexivity.
    + apply list_elem_of_singleton. reflexivity.
    + reflexivity.
  - apply (proj2 payload_fixed_at_planning Fleet.env_edit (Fleet.item7 "create")
             Fleet.t7_edited (Fleet.tr7 INITIAL) (Fleet.world7 INITIAL)).
    reflexivity.
Defined.


Lemma wf_store7 v : wf_store (Fleet.store7 v).
Proof.
  split.
  - intros k t H. simpl in H. apply lookup_singleton_Some in H as [<- <-]. reflexivity.
  - intros k r H. simpl in H. apply lookup_singleton_Some in H as [<- <-]. reflexivity.
Defined.

Lemma create_modify_writes_only_sync_status_witness :
  agents (db (_handle_task_on_agent (Fleet.env "ok") (Fleet.item7 "modify")
                (Fleet.world7 NOT_SYNCED)).2) = [Fleet.win1]
  ∧ autotasks (db (_handle_task_on_agent (Fleet.env "ok") (Fleet.item7 "modify")
                     (Fleet.world7 NOT_SYNCED)).2)
    = autotasks (Fleet.store7 NOT_SYNCED)
  ∧ (∀ k, k ≠ (1, 7) →
          taskresults (db (_handle_task_on_agent (Fleet.env "ok") (Fleet.item7 "modify")
                             (Fleet.world7 NOT_SYNCED)).2) !! k
          = taskresults (Fleet.store7 NOT_SYNCED) !! k)
  ∧ (∀ row, taskresults (Fleet.store7 NOT_SYNCED) !! (1, 7) = Some row →
       ∃ v, taskresults (db (_handle_task_on_agent (Fleet.env "ok") (Fleet.item7 "modify")
                               (Fleet.world7 NOT_SYNCED)).2) !! (1, 7)
            = Some (TaskResult.set_sync_status v row)).
Proof.
  apply (proj2 (proj2 create_modify_writes_only_sync_status) (Fleet.env "ok")
           (Fleet.item7 "modify") (Fleet.world7 NOT_SYNCED)).
  - exact (wf_store7 NOT_SYNCED).
  - reflexivity.
Defined.

(** ** [_get_failing_data] *)

Lemma agent_loop_unfold data agent rest :
  agent_loop data (agent :: rest) =
  if MonitoredAgent.maintenance_mode agent then data
  else if overdue_alerting agent then FailingData.set_error data
  else
    let data1 := if checks_warning_now agent then FailingData.set_warning data else data in
    if checks_failing_now agent then FailingData.set_error data1
    else agent_loop
           (if negb (FailingData.error data1) && negb (FailingData.warning data1)
            then task_loop data1 (MonitoredAgent.tasks agent) else data1) rest.
Proof. reflexivity. Qed.

(** The loops only ever raise the flags. *)
Lemma task_loop_mono data tasks :
  (FailingData.error data = true → FailingData.error (task_loop data tasks) = true)
  ∧ (FailingData.warning data = true → FailingData.warning (task_loop data tasks) = true).
Proof.
  revert data. induction tasks as [|task rest IH]; intros data; simpl; [done|].
  destruct (FailingData.error data && FailingData.warning data); [done|].
  destruct (MonitoredTask.task_result task); [|apply IH].
  repeat match goal with |- context [if ?b then _ else _] => destruct b end;
    split; intros H; apply IH; simpl; auto.
Qed.

Lemma agent_loop_mono data agents :
  (FailingData.error data = true → FailingData.error (agent_loop data agents) = true)
  ∧ (FailingData.warning data = true → FailingData.warning (agent_loop data agents) = true).
Proof.
  revert data. induction agents as [|a rest IH]; intros data; [done|].
  rewrite agent_loop_unfold.
  destruct (MonitoredAgent.maintenance_mode a); [done|].
  destruct (overdue_alerting a); [by split|].
  destruct (checks_warning_now a), (checks_failing_now a); simpl.
  - by split.
  - destruct (negb (FailingData.error data)); simpl; split; intros H; apply IH; auto.
  - by split.
  - destruct (negb (FailingData.error data) && negb (FailingData.warning data));
      split; intros H; apply IH; auto; by apply task_loop_mono.
Qed.

Lemma task_loop_error data tasks :
  FailingData.error (task_loop data tasks) = true →
  FailingData.error data = true
  ∨ ∃ task, task ∈ tasks ∧ task_failing_with task AlertSeverity.ERROR = true.
Proof.
  revert data. induction tasks as [|task rest IH]; intros data; simpl; [auto|].
  destruct (FailingData.error data && FailingData.warning data); [auto|].
  assert (∀ d, FailingData.error d = FailingData.error data →
               FailingData.error (task_loop d rest) = true →
               FailingData.error data = true
               ∨ ∃ t, t ∈ task :: rest ∧ task_failing_with t AlertSeverity.ERROR = true)
    as Hgo.
  { intros d Hd H. destruct (IH _ H) as [He|(t & Ht & Hf)].
    - left. congruence.
    - right. exists t. split; [by right|done]. }
  destruct (MonitoredTask.task_result task) eqn:Htr; [|by apply Hgo].
  destruct (negb (FailingData.error data)
            && task_failing_with task AlertSeverity.ERROR) eqn:He.
  - intros _. right. exists task. split; [by left|].
    by apply andb_true_iff in He as [_ He].
  - destruct (negb (FailingData.warning data) && _); by apply Hgo.
Qed.

Lemma task_loop_warning data tasks :
  FailingData.warning (task_loop data tasks) = true →
  FailingData.warning data = true
  ∨ ∃ task, task ∈ tasks ∧ task_failing_with task AlertSeverity.WARNING = true.
Proof.
  revert data. induction tasks as [|task rest IH]; intros data; simpl; [auto|].
  destruct (FailingData.error data && FailingData.warning data); [auto|].
  assert (∀ d, FailingData.warning d = FailingData.warning data →
               FailingData.warning (task_loop d rest) = true →
               FailingData.warning data = true
               ∨ ∃ t, t ∈ task :: rest ∧ task_failing_with t AlertSeverity.WARNING = true)
    as Hgo.
  { intros d Hd H. destruct (IH _ H) as [He|(t & Ht & Hf)].
    - left. congruence.
    - right. exists t. split; [by right|done]. }
  destruct (MonitoredTask.task_result task) eqn:Htr; [|by apply Hgo].
  destruct (negb (FailingData.error data)
            && task_failing_with task AlertSeverity.ERROR) eqn:He; [by apply Hgo|].
  destruct (negb (FailingData.warning data)
            && task_failing_with task AlertSeverity.WARNING) eqn:Hw; [|by apply Hgo].
  intros _. right. exists task. split; [by left|].
  by apply andb_true_iff in Hw as [_ Hw].
Qed.

Lemma reached_cons b agents l1 a l2 :
  MonitoredAgent.maintenance_mode b = false →
  reached agents l1 a l2 → reached (b :: agents) (b :: l1) a l2.
Proof.
  intros Hb (-> & Hl & Ha). split; [done|]. split; [by constructor|done].
Qed.

Lemma reached_head a rest :
  MonitoredAgent.maintenance_mode a = false → reached (a :: rest) [] a rest.
Proof. intros Ha. split; [done|]. split; [constructor|done]. Qed.

Lemma agent_loop_error data agents :
  FailingData.error (agent_loop data agents) = true →
  FailingData.error data = true
  ∨ ∃ l1 a l2, reached agents l1 a l2
      ∧ (overdue_alerting a = true ∨ checks_failing_now a = true
         ∨ ∃ task, task ∈ MonitoredAgent.tasks a
             ∧ task_failing_with task AlertSeverity.ERROR = true).
Proof.
  revert data. induction agents as [|a rest IH]; intros data; [auto|].
  rewrite agent_loop_unfold.
  destruct (MonitoredAgent.maintenance_mode a) eqn:Hm; [auto|].
  destruct (overdue_alerting a) eqn:Ho.
  { intros _. right. exists [], a, rest. split; [by apply reached_head|auto]. }
  simpl. destruct (checks_failing_now a) eqn:Hf.
  { intros _. right. exists [], a, rest. split; [by apply reached_head|auto]. }
  intros H. apply IH in H as [H|(l1 & b & l2 & Hr & Hc)].
  - set (data1 := if checks_warning_now a then FailingData.set_warning data else data) in *.
    assert (FailingData.error data1 = FailingData.error data) as E1.
    { subst data1. by destruct (checks_warning_now a). }
    destruct (negb (FailingData.error data1) && negb (FailingData.warning data1)).
    + apply task_loop_error in H as [H|(t & Ht & Hft)]; [left; congruence|].
      right. exists [], a, rest. split; [by apply reached_head|eauto].
    + left. congruence.
  - right. exists (a :: l1), b, l2. split; [by apply reached_cons|done].
Qed.

Lemma agent_loop_warning data agents :
  FailingData.warning (agent_loop data agents) = true →
  FailingData.warning data = true
  ∨ ∃ l1 a l2, reached agents l1 a l2
      ∧ (checks_warning_now a = true
         ∨ ∃ task, task ∈ MonitoredAgent.tasks a
             ∧ task_failing_with task AlertSeverity.WARNING = true).
Proof.
  revert data. induction agents as [|a rest IH]; intros data; [auto|].
  rewrite agent_loop_unfold.
  destruct (MonitoredAgent.maintenance_mode a) eqn:Hm; [auto|].
  destruct (overdue_alerting a) eqn:Ho; [auto|].
  simpl. destruct (checks_warning_now a) eqn:Hw.
  { intros _. right. exists [], a, rest. split; [by apply reached_head|auto]. }
  destruct (checks_failing_now a) eqn:Hf; [auto|].
  intros H. apply IH in H as [H|(l1 & b & l2 & Hr & Hc)].
  - destruct (negb (FailingData.error data) && negb (FailingData.warning data)).
    + apply task_loop_warning in H as [H|(t & Ht & Hft)]; [by left|].
      right. exists [], a, rest. split; [by apply reached_head|eauto].
    + by left.
  - right. exists (a :: l1), b, l2. split; [by apply reached_cons|done].
Qed.

Lemma agent_loop_reports_hard_failure data agents l1 a l2 :
  reached agents l1 a l2 →
  overdue_alerting a = true ∨ checks_failing_now a = true →
  FailingData.error (agent_loop data agents) = true.
Proof.
  intros (-> & Hl & Ha) Hc. revert data.
  induction Hl as [|b l1 Hb Hl IH]; intros data.
  - simpl app. rewrite agent_loop_unfold, Ha.
    destruct (overdue_alerting a); [done|]. destruct Hc as [Hc|Hc]; [done|].
    by rewrite Hc.
  - rewrite <- app_comm_cons, agent_loop_unfold, Hb.
    destruct (overdue_alerting b); [done|]. simpl.
    destruct (checks_failing_now b); [done|]. apply IH.
Qed.

Lemma task_loop_flagged_agent data agents :
  FailingData.error data = true ∨ FailingData.warning data = true →
  agent_loop data agents = agent_loop data (without_tasks <$> agents).
Proof.
  revert data. induction agents as [|a rest IH]; intros data Hflag; [done|].
  rewrite fmap_cons, !agent_loop_unfold.
  change (MonitoredAgent.maintenance_mode (without_tasks a))
    with (MonitoredAgent.maintenance_mode a).
  change (overdue_alerting (without_tasks a)) with (overdue_alerting a).
  change (checks_warning_now (without_tasks a)) with (checks_warning_now a).
  change (checks_failing_now (without_tasks a)) with (checks_failing_now a).
  destruct (MonitoredAgent.maintenance_mode a); [done|].
  destruct (overdue_alerting a); [done|]. simpl.
  destruct (checks_failing_now a); [done|].
  set (data1 := if checks_warning_now a then FailingData.set_warning data else data).
  assert (FailingData.error data1 = true ∨ FailingData.warning data1 = true) as H1.
  { subst data1. destruct (checks_warning_now a); [by right|done]. }
  assert (negb (FailingData.error data1) && negb (FailingData.warning data1) = false) as ->.
  { destruct H1 as [-> | ->]; [done|]. by rewrite andb_false_r. }
  by apply IH.
Qed.

(** X1: a maintenance-mode agent ends the scan: it and every agent after it
    in the queryset have no influence on the result. *)
Theorem failing_data_stops_at_maintenance l1 a l2 :
  MonitoredAgent.maintenance_mode a = true →
  _get_failing_data (l1 ++ a :: l2) = _get_failing_data l1.
Proof.
  intros Ha. unfold _get_failing_data. generalize (FailingData.mk false false).
  induction l1 as [|b l1 IH]; intros data.
  - simpl. by rewrite Ha.
  - rewrite <- app_comm_cons, !agent_loop_unfold.
    destruct (MonitoredAgent.maintenance_mode b); [done|].
    destruct (overdue_alerting b); [done|]. simpl.
    destruct (checks_failing_now b); [done|]. apply IH.
Qed.

Lemma failing_data_stops_at_maintenance_witness :
  _get_failing_data ([Site.healthy] ++ Site.in_maintenance :: [Site.overdue])
  = _get_failing_data [Site.healthy].
Proof.
  apply (failing_data_stops_at_maintenance [Site.healthy] Site.in_maintenance
           [Site.overdue]).
  reflexivity.
Defined.

(** X2: a flag that is set has a cause among the agents the loop reached.
    "error": an agent that is overdue with an overdue alert switched on, or
    has failing checks, or has a failing task of severity error; "warning":
    an agent with checks in warning or a failing task of severity
    warning. *)
Theorem failing_data_flags_have_a_cause agents :
  (FailingData.error (_get_failing_data agents) = true →
   ∃ l1 a l2, reached agents l1 a l2
     ∧ (overdue_alerting a = true ∨ checks_failing_now a = true
        ∨ ∃ task, task ∈ MonitoredAgent.tasks a
            ∧ task_failing_with task AlertSeverity.ERROR = true))
  ∧ (FailingData.warning (_get_failing_data agents) = true →
     ∃ l1 a l2, reached agents l1 a l2
       ∧ (checks_warning_now a = true
          ∨ ∃ task, task ∈ MonitoredAgent.tasks a
              ∧ task_failing_with task AlertSeverity.WARNING = true)).
Proof.
  split; intros H.
  - apply agent_loop_error in H as [H|H]; [discriminate|done].
  - apply agent_loop_warning in H as [H|H]; [discriminate|done].
Qed.

Lemma failing_data_flags_have_a_cause_witness :
  ∃ l1 a l2, reached [Site.healthy; Site.task_error] l1 a l2
    ∧ (overdue_alerting a = true ∨ checks_failing_now a = true
       ∨ ∃ task, task ∈ MonitoredAgent.tasks a
           ∧ task_failing_with task AlertSeverity.ERROR = true).
Proof.
  apply (proj1 (failing_data_flags_have_a_cause [Site.healthy; Site.task_error])).
  reflexivity.
Defined.

(** X3: an agent the loop reaches that is overdue with an overdue alert
    switched on, or that has failing checks, makes the result an error,
    whatever the other agents are. *)
Theorem failing_data_reports_hard_failure agents l1 a l2 :
  reached agents l1 a l2 →
  overdue_alerting a = true ∨ checks_failing_now a = true →
  FailingData.error (_get_failing_data agents) = true.
Proof.
  intros Hr Hc. unfold _get_failing_data.
  by apply (agent_loop_reports_hard_failure _ agents l1 a l2).
Qed.

Lemma failing_data_reports_hard_failure_witness :
  FailingData.error
    (_get_failing_data [Site.check_warning; Site.overdue; Site.in_maintenance]) = true.
Proof.
  apply (failing_data_reports_hard_failure
           [Site.check_warning; Site.overdue; Site.in_maintenance]
           [Site.check_warning] Site.overdue [Site.in_maintenance]).
  - split; [reflexivity|]. split; [|reflexivity].
    constructor; [reflexivity|constructor].
  - left. reflexivity.
Defined.

(** X4: once a flag is set, the tasks of the agents that follow are not
    looked at: the result is the same with those agents' tasks removed.  A
    failing task of severity error of a later agent does not turn a warning
    into an error. *)
Theorem failing_data_skips_tasks_once_flagged l1 l2 :
  FailingData.error (_get_failing_data l1) = true
  ∨ FailingData.warning (_get_failing_data l1) = true →
  _get_failing_data (l1 ++ l2) = _get_failing_data (l1 ++ (without_tasks <$> l2)).
Proof.
  unfold _get_failing_data. generalize (FailingData.mk false false).
  induction l1 as [|a l1 IH]; intros data Hflag.
  - by apply task_loop_flagged_agent.
  - rewrite <- !app_comm_cons, !agent_loop_unfold.
    rewrite agent_loop_unfold in Hflag.
    destruct (MonitoredAgent.maintenance_mode a); [done|].
    destruct (overdue_alerting a); [done|]. simpl in *.
    destruct (checks_failing_now a); [done|]. by apply IH.
Qed.

Lemma failing_data_skips_tasks_once_flagged_witness :
  _get_failing_data ([Site.check_warning] ++ [Site.task_error])
  = _get_failing_data ([Site.check_warning] ++ (without_tasks <$> [Site.task_error])).
Proof.
  apply (failing_data_skips_tasks_once_flagged [Site.check_warning] [Site.task_error]).
  right. reflexivity.
Defined.

(** ** [resolve_pending_actions] *)

Lemma just_updated_true latest a :
  just_updated latest a = inr true ↔ updated_and_online latest a.
Proof.
  unfold just_updated, updated_and_online, parse_version, version_eq. unfold_result.
  destruct (pyver.parse (Agent.version (PendingAction.agent a))) as [v|];
    [|split; [discriminate|intros (v & l & [=] & _)]].
  destruct (pyver.parse latest) as [l|];
    [|split; [discriminate|intros (v0 & l & _ & [=] & _)]].
  split.
  - intros [= H]. apply andb_true_iff in H as [H1 H2].
    apply bool_decide_eq_true in H1, H2. by exists v, l.
  - intros (v0 & l0 & [= <-] & [= <-] & Hk & Hs).
    f_equal. apply andb_true_iff. by rewrite !bool_decide_eq_true.
Qed.

Lemma elem_of_pending_agent_updates a table :
  a ∈ pending_agent_updates table ↔
  a ∈ table ∧ PendingAction.action_type a = AGENT_UPDATE
  ∧ PendingAction.status a = PAStatus.PENDING.
Proof. unfold pending_agent_updates. rewrite list_elem_of_filter. tauto. Qed.

Lemma to_update_elem latest table pks pk :
  to_update latest table = inr pks →
  pk ∈ pks ↔ ∃ a, a ∈ table ∧ PendingAction.id a = pk
              ∧ PendingAction.action_type a = AGENT_UPDATE
              ∧ PendingAction.status a = PAStatus.PENDING
              ∧ updated_and_online latest a.
Proof.
  intros H. unfold to_update in H. rewrite (collect_elem _ _ _ pk H). split.
  - intros (a & ys & Ha & Hf & Hpk). apply elem_of_pending_agent_updates in Ha as (Ha & Ht & Hs).
    unfold_result. destruct (just_updated latest a) as [e|[]] eqn:Hj; try discriminate.
    + injection Hf as <-. apply list_elem_of_singleton in Hpk as ->.
      exists a. repeat split; try done. by apply just_updated_true.
    + injection Hf as <-. inversion Hpk.
  - intros (a & Ha & <- & Ht & Hs & Hu). exists a, [PendingAction.id a].
    split; [by apply elem_of_pending_agent_updates|]. split.
    + apply just_updated_true in Hu. unfold_result. by rewrite Hu.
    + by apply list_elem_of_singleton.
Qed.

Section collect_more.
Context {A B : Type} (f : A → Result (list B)).

Lemma collect_inr_iff (l : list A) :
  (∃ out, collect f l = inr out) ↔ ∀ x, x ∈ l → ∃ ys, f x = inr ys.
Proof.
  induction l as [|a l IH]; simpl; unfold_result.
  - split; [|eauto]. intros _ x Hx. inversion Hx.
  - split.
    + intros [out H]. destruct (f a) as [e|ys] eqn:Hfa; [discriminate|].
      destruct (collect f l) as [e|zs] eqn:Hl; [discriminate|].
      intros x Hx. apply elem_of_cons in Hx as [->|Hx]; [eauto|].
      apply IH; eauto.
    + intros H. destruct (H a) as [ys ->]; [by left|].
      destruct (proj2 IH) as [zs ->]; [|eauto].
      intros x Hx. apply H. by right.
Qed.

End collect_more.

Lemma update_status_nil v table : update_status [] v table = table.
Proof.
  unfold update_status. induction table as [|a table IH]; [done|].
  rewrite fmap_cons, IH. by rewrite bool_decide_eq_false_2 by apply not_elem_of_nil.
Qed.




(** X6: a second run just after the first changes nothing. *)
Theorem resolve_pending_actions_idempotent latest table table' :
  resolve_pending_actions latest table = (inr (), table') →
  resolve_pending_actions latest table' = (inr (), table').
Proof.
  unfold resolve_pending_actions at 1.
  destruct (to_update latest table) as [e|pks] eqn:Hpks; [discriminate|].
  intros [= <-].
  assert (∀ a', a' ∈ pending_agent_updates (update_status pks PAStatus.COMPLETED table) →
                a' ∈ pending_agent_updates table
                ∧ PendingAction.id a' ∉ pks) as Hsub.
  { intros a' Ha'. apply elem_of_pending_agent_updates in Ha' as (Ha' & Ht & Hs).
    unfold update_status in Ha'. apply list_elem_of_fmap in Ha' as (a & -> & Ha).
    case_bool_decide as Hin; [discriminate|].
    split; [by apply elem_of_pending_agent_updates|done]. }
  assert (∃ pks', to_update latest (update_status pks PAStatus.COMPLETED table) = inr pks')
    as [pks' Hpks'].
  { apply collect_inr_iff. intros a' Ha'. apply Hsub in Ha' as [Ha' _].
    unfold to_update in Hpks.
    exact (proj1 (collect_inr_iff _ _) (ex_intro _ pks Hpks) a' Ha'). }
  unfold resolve_pending_actions. rewrite Hpks'.
  assert (pks' = []) as ->; [|by rewrite update_status_nil].
  destruct pks' as [|pk pks']; [done|]. exfalso.
  assert (pk ∈ pk :: pks') as Hpk by (by left).
  apply (to_update_elem _ _ _ _ Hpks') in Hpk as (a' & Ha' & Hid & Ht & Hs & Hu).
  destruct (Hsub a') as [Hin Hnot]; [by apply elem_of_pending_agent_updates|].
  apply Hnot. apply (to_update_elem _ _ _ _ Hpks).
  apply elem_of_pending_agent_updates in Hin as (Hin & _ & _). by exists a'.
Qed.



Lemma resolve_pending_actions_idempotent_witness :
  resolve_pending_actions "2.6.0" Desk.table_after = (inr (), Desk.table_after).
Proof.
  apply (resolve_pending_actions_idempotent "2.6.0" Desk.table Desk.table_after).
  vm_compute. reflexivity.
Defined.


(** ** [core_maintenance_tasks] *)

Lemma lookup_filter_bool `{Countable K} {A} (P : K * A → bool) (m : gmap K A) (i : K) :
  filter (λ kv, P kv = true) m !! i =
  match m !! i with
  | Some x => if P (i, x) then Some x else None
  | None => None
  end.
Proof.
  destruct (m !! i) as [x|] eqn:Hm.
  - destruct (P (i, x)) eqn:HP.
    + by apply map_lookup_filter_Some.
    + apply map_lookup_filter_None. right. intros y Hy. rewrite Hm in Hy.
      injection Hy as <-. simpl. congruence.
  - apply map_lookup_filter_None. by left.
Qed.

Lemma delete_expired_autotasks now schedule s k :
  autotasks (delete_expired now schedule s) !! k =
  match autotasks s !! k with
  | Some t => if expired now (schedule t) then None else Some t
  | None => None
  end.
Proof.
  simpl.
  rewrite (lookup_filter_bool (λ kv, negb (expired now (schedule kv.2)))).
  destruct (autotasks s !! k) as [t|]; [|done]. simpl. by destruct (expired _ _).
Qed.

Lemma delete_expired_taskresults now schedule s a k :
  taskresults (delete_expired now schedule s) !! (a, k) =
  match autotasks s !! k with
  | Some t => if expired now (schedule t) then None else taskresults s !! (a, k)
  | None => taskresults s !! (a, k)
  end.
Proof.
  simpl.
  rewrite (lookup_filter_bool
             (λ kv, match autotasks s !! kv.1.2 with
                    | Some t => negb (expired now (schedule t))
                    | None => true
                    end)).
  simpl. destruct (taskresults s !! (a, k)) as [r|].
  - destruct (autotasks s !! k) as [t|]; [|done]. by destruct (expired _ _).
  - destruct (autotasks s !! k) as [t|]; [|done]. by destruct (expired _ _).
Qed.

Lemma expired_later now now' c :
  (now ≤ now')%Z → expired now c = true → expired now' c = true.
Proof.
  unfold expired. intros Hle H. apply andb_true_iff in H as [-> H]. simpl.
  destruct (TaskSchedule.expire_date c) as [d|]; [|done].
  apply bool_decide_eq_true in H. apply bool_decide_eq_true. lia.
Qed.

Lemma store_eq (s1 s2 : Store) :
  agents s1 = agents s2 →
  (∀ k, autotasks s1 !! k = autotasks s2 !! k) →
  (∀ a k, taskresults s1 !! (a, k) = taskresults s2 !! (a, k)) →
  next_pk s1 = next_pk s2 →
  s1 = s2.
Proof.
  destruct s1 as [ag1 au1 tr1 n1], s2 as [ag2 au2 tr2 n2]. simpl.
  intros -> Hau Htr ->. f_equal.
  - by apply map_eq.
  - apply map_eq. by intros [a k].
Qed.

(** X8: after [core_maintenance_tasks] a task is in the store exactly when
    it was there and is not both flagged remove_if_not_scheduled and past
    its expire date (a task without expire date stays); the TaskResult rows
    of the tasks that stay are as they were and those of the deleted tasks
    are gone; the agents are untouched. *)
Theorem maintenance_deletes_expired_tasks now schedule core s :
  agents (core_maintenance_tasks now schedule core s).1 = agents s
  ∧ (∀ k, autotasks (core_maintenance_tasks now schedule core s).1 !! k =
          match autotasks s !! k with
          | Some t => if expired now (schedule t) then None else Some t
          | None => None
          end)
  ∧ (∀ a k, taskresults (core_maintenance_tasks now schedule core s).1 !! (a, k) =
            match autotasks s !! k with
            | Some t => if expired now (schedule t) then None else taskresults s !! (a, k)
            | None => taskresults s !! (a, k)
            end)
  ∧ (∀ k t, autotasks s !! k = Some t →
            TaskSchedule.expire_date (schedule t) = None →
            autotasks (core_maintenance_tasks now schedule core s).1 !! k = Some t).
Proof.
  unfold core_maintenance_tasks. cbn [fst]. split; [done|].
  split; [apply delete_expired_autotasks|].
  split; [apply delete_expired_taskresults|].
  intros k t Hk Hd. rewrite delete_expired_autotasks, Hk.
  unfold expired. rewrite Hd. by rewrite andb_false_r.
Qed.

(** X9: running the maintenance at a time and again at a later time leaves
    the store that one run at the later time leaves; in particular a second
    run at the same time changes nothing. *)
Theorem maintenance_runs_compose now now' schedule core core' s :
  (now ≤ now')%Z →
  (core_maintenance_tasks now' schedule core'
     (core_maintenance_tasks now schedule core s).1).1
  = (core_maintenance_tasks now' schedule core' s).1.
Proof.
  intros Hle. unfold core_maintenance_tasks. cbn [fst].
  apply store_eq; try done.
  - intros k. rewrite !delete_expired_autotasks.
    destruct (autotasks s !! k) as [t|]; [|done].
    destruct (expired now (schedule t)) eqn:He; [|done].
    by rewrite (expired_later now now' _ Hle He).
  - intros a k. rewrite !delete_expired_taskresults, delete_expired_autotasks.
    destruct (autotasks s !! k) as [t|]; [|done].
    destruct (expired now (schedule t)) eqn:He.
    + by rewrite (expired_later now now' _ Hle He).
    + by destruct (expired now' (schedule t)).
Qed.

Lemma elem_of_queue_if_positive days job j :
  j ∈ queue_if_positive days job ↔ (0 < days)%Z ∧ j = job days.
Proof.
  unfold queue_if_positive. case_bool_decide as Hd.
  - rewrite list_elem_of_singleton. split; [by intros ->|by intros [_ ->]].
  - split; [intros Hj; inversion Hj|by intros [Hp _]].
Qed.

(** X10: a job is queued exactly for the settings that are greater than
    zero, with the setting as its number of days; a setting of zero queues
    nothing. *)
Theorem maintenance_queues_positive_settings now schedule core s j :
  j ∈ (core_maintenance_tasks now schedule core s).2 ↔
  ((0 < CoreSettings.check_history_prune_days core)%Z
   ∧ j = prune_check_history (CoreSettings.check_history_prune_days core))
  ∨ ((0 < CoreSettings.resolved_alerts_prune_days core)%Z
     ∧ j = prune_resolved_alerts (CoreSettings.resolved_alerts_prune_days core))
  ∨ ((0 < CoreSettings.agent_history_prune_days core)%Z
     ∧ j = prune_agent_history (CoreSettings.agent_history_prune_days core))
  ∨ ((0 < CoreSettings.debug_log_prune_days core)%Z
     ∧ j = prune_debug_log (CoreSettings.debug_log_prune_days core))
  ∨ ((0 < CoreSettings.audit_log_prune_days core)%Z
     ∧ j = prune_audit_log (CoreSettings.audit_log_prune_days core))
  ∨ ((0 < CoreSettings.clear_faults_days core)%Z
     ∧ j = clear_faults_task (CoreSettings.clear_faults_days core)).
Proof.
  unfold core_maintenance_tasks. cbn [snd]. unfold maintenance_jobs.
  rewrite !elem_of_app, !elem_of_queue_if_positive. tauto.
Qed.

Lemma maintenance_runs_compose_witness :
  (core_maintenance_tasks 2000 Upkeep.schedule Upkeep.core
     (core_maintenance_tasks 500 Upkeep.schedule Upkeep.core Fleet.store78).1).1
  = (core_maintenance_tasks 2000 Upkeep.schedule Upkeep.core Fleet.store78).1.
Proof.
  apply (maintenance_runs_compose 500 2000 Upkeep.schedule Upkeep.core Upkeep.core
           Fleet.store78).
  lia.
Defined.

Lemma maintenance_deletes_expired_tasks_witness :
  autotasks (core_maintenance_tasks 2000 Upkeep.schedule Upkeep.core Fleet.store78).1 !! 8
  = Some Fleet.t8.
Proof.
  apply (proj2 (proj2 (proj2 (maintenance_deletes_expired_tasks 2000 Upkeep.schedule
                                Upkeep.core Fleet.store78))) 8 Fleet.t8).
  - reflexivity.
  - reflexivity.
Defined.

Lemma maintenance_queues_positive_settings_witness :
  prune_check_history 30
    ∈ (core_maintenance_tasks 2000 Upkeep.schedule Upkeep.core Fleet.store78).2.
Proof.
  apply (proj2 (maintenance_queues_positive_settings 2000 Upkeep.schedule Upkeep.core
                  Fleet.store78 (prune_check_history 30))).
  left. split; [reflexivity|reflexivity].
Defined.

(** ** What the cycle keeps *)

Lemma step_keeps_refl w : step_keeps w w.
Proof.
  repeat split; try done. exists []. by rewrite app_nil_r.
Qed.

Lemma step_keeps_trans w1 w2 w3 : step_keeps w1 w2 → step_keeps w2 w3 → step_keeps w1 w3.
Proof.
  intros (Ha & Hc & Ht & evs & He & Hf) (Ha' & Hc' & Ht' & evs' & He' & Hf').
  split; [congruence|]. split; [congruence|]. split; [auto|].
  exists (evs ++ evs')%list. split; [by rewrite He', He, app_assoc|by apply Forall_app].
Qed.

Lemma step_keeps_emit e w : handler_event e = true → step_keeps w (emit e w).
Proof.
  intros He. repeat split; try done. exists [e]. split; [done|by constructor].
Qed.

Lemma asave_keeps env tr w : step_keeps w (asave_sync_status env tr w).2.
Proof.
  destruct (asave_cases env tr w) as [(row & _ & _ & _ & ->)| ->]; simpl.
  - repeat split; try done. eexists [_]. split; [done|]. by constructor.
  - by apply step_keeps_emit.
Qed.

Lemma adelete_keeps task w : step_keeps w (adelete_task task w).
Proof.
  repeat split; try done.
  - simpl. intros k t Hk. apply lookup_delete_Some in Hk. tauto.
  - eexists [_]. split; [done|]. by constructor.
Qed.

Lemma step_step_keeps env it c w : step_keeps w (step env it c w).2.
Proof.
  destruct c; simpl; try apply step_keeps_refl.
  - unfold aget_task. destruct (autotasks (db w) !! _); by apply step_keeps_emit.
  - destruct (taskresults (db w) !! _); by apply step_keeps_emit.
  - unfold acreate_result. destruct (taskresults (db w) !! _); [by apply step_keeps_emit|].
    destruct (autotasks (db w) !! _); [|by apply step_keeps_emit].
    repeat split; try done. eexists [_]. split; [done|]. by constructor.
  - destruct (is_create_or_modify (Item.action it)); simpl.
    + apply (step_keeps_trans _ (emit (EvLog (LogDebug (Item.payload it))) w));
        by apply step_keeps_emit.
    + by apply step_keeps_emit.
  - destruct (is_create_or_modify (Item.action it)).
    + destruct (create_modify_branch_save env it task task_result r w) as (v & l & ->).
      pose proof (asave_keeps env (TaskResult.set_sync_status v task_result)
                    (emit (EvLog l) w)) as Hk.
      destruct (asave_sync_status _ _ _) as [[e|] w2]; simpl in *;
        (eapply step_keeps_trans; [by apply (step_keeps_emit (EvLog l))|done]).
    + unfold delete_branch. destruct (_ && _); simpl.
      * eapply step_keeps_trans; [apply asave_keeps|]. by apply step_keeps_emit.
      * eapply step_keeps_trans; [apply adelete_keeps|]. by apply step_keeps_emit.
Qed.

Lemma resumes_keeps env ts w ts' w' : resumes env ts w ts' w' → step_keeps w w'.
Proof.
  induction 1 as [|ts w i it c c' w1 ts' w' _ _ Hs _ _ IH]; [apply step_keeps_refl|].
  eapply step_keeps_trans; [|exact IH].
  pose proof (step_step_keeps env it c w) as Hk. by rewrite Hs in Hk.
Qed.

Lemma gather_keeps env sched actions w exn ts' w' :
  gather env sched (spawn actions) w = (exn, ts', w') → step_keeps w w'.
Proof.
  intros H. apply gather_outcome in H. destruct exn as [e|].
  - destruct H as (ts1 & w1 & i & it & c & Hr & _ & _ & Hs & _).
    eapply step_keeps_trans; [by eapply resumes_keeps|].
    pose proof (step_step_keeps env it c w1) as Hk. by rewrite Hs in Hk.
  - destruct H as [Hr _]. by eapply resumes_keeps.
Qed.

Ltac absent_event H :=
  repeat (apply elem_of_cons in H as [H|H]; [discriminate|]); inversion H.

(** The two ways [_run] goes. *)
Lemma run_cases env sched actions w :
  (∃ e, nats_connect env = Some e
     ∧ _run env sched actions w
       = (inr (Some e), emit (EvLog (LogError e)) (emit (EvConnect (Some e)) w)))
  ∨ (nats_connect env = None
     ∧ ∃ w2, step_keeps (emit (EvConnect None) w) w2
         ∧ ((∃ e, _run env sched actions w = (inl e, w2))
            ∨ _run env sched actions w = (inr None, emit EvClose (emit EvFlush w2)))).
Proof.
  unfold _run. destruct (nats_connect env) as [e|]; [left; eauto|right].
  split; [done|]. destruct actions as [|it actions].
  - exists (emit (EvConnect None) w). split; [apply step_keeps_refl|by right].
  - destruct (gather env sched (spawn (it :: actions)) (emit (EvConnect None) w))
      as [[exn ts'] w2] eqn:Hg.
    exists w2. split; [by eapply gather_keeps|].
    destruct exn as [e|]; [left; eauto|by right].
Qed.

Lemma run_keeps_cache env sched actions w :
  cache (_run env sched actions w).2 = cache w.
Proof.
  destruct (run_cases env sched actions w)
    as [(e & _ & ->)|(_ & w2 & (_ & Hc & _) & [[e ->]| ->])]; done.
Qed.

(** X11: the invocation leaves the cache of locks as it found it, whatever
    its outcome: a lock held by another invocation stays with its owner,
    and a lock it took itself is released when it returns "ok", when the
    connect fails and when the planner or a coroutine raises. *)
Theorem invocation_restores_the_lock env oid sched w :
  cache (sync_scheduled_tasks env oid sched w).2 = cache w.
Proof.
  unfold sync_scheduled_tasks, try_acquire.
  destruct (cache w !! SYNC_SCHED_TASK_LOCK) eqn:Hlock; simpl; [done|].
  destruct (planner env (db w)) as [e|actions]; simpl.
  { by apply delete_insert_id. }
  match goal with |- context [_run env sched actions ?w2] =>
    pose proof (run_keeps_cache env sched actions w2) as Hc;
    destruct (_run env sched actions w2) as [[e|v] w3]
  end; simpl in *; rewrite Hc; by apply delete_insert_id.
Qed.

(** The events of a whole invocation. *)
Lemma cycle_event_of_handler e : handler_event e = true →
  ∀ pk fields v raised, e = EvSave pk fields v raised → fields = ["sync_status"].
Proof.
  intros He pk fields v raised ->. simpl in He. by apply bool_decide_eq_true in He.
Qed.

(** X12: when no other writer touches the store during the cycle, the
    invocation leaves the agents as they are and neither adds nor alters a
    task (it can only delete tasks), and every save it makes is restricted
    to sync_status; this holds for every order in which the coroutines are
    resumed and for every outcome. *)
Theorem invocation_reads_agents_and_tasks env oid sched w :
  (∀ s, concurrent_edits env s = s) →
  agents (db (sync_scheduled_tasks env oid sched w).2) = agents (db w)
  ∧ (∀ k t, autotasks (db (sync_scheduled_tasks env oid sched w).2) !! k = Some t →
            autotasks (db w) !! k = Some t)
  ∧ ∃ evs, trace (sync_scheduled_tasks env oid sched w).2 = (trace w ++ evs)%list
      ∧ ∀ pk fields v raised, EvSave pk fields v raised ∈ evs → fields = ["sync_status"].
Proof.
  intros Hquiet. unfold sync_scheduled_tasks, try_acquire.
  destruct (cache w !! SYNC_SCHED_TASK_LOCK) eqn:Hlock; simpl.
  { repeat split; try done. exists []. split; [by rewrite app_nil_r|].
    intros pk fields v raised H. inversion H. }
  destruct (planner env (db w)) as [e|actions]; simpl.
  { repeat split; try done. exists [EvAgentQuery]. split; [done|].
    intros pk fields v raised H. apply list_elem_of_singleton in H. discriminate. }
  rewrite Hquiet.
  set (w2 := set_db (db w) (emit EvAgentQuery (set_cache _ w))).
  assert (∀ evs, Forall (λ e, handler_event e = true) evs →
            ∀ pk fields v raised, EvSave pk fields v raised ∈ evs → fields = ["sync_status"])
    as Hsaves.
  { intros evs Hf pk fields v raised Hin. rewrite Forall_forall in Hf.
    by eapply cycle_event_of_handler; [apply Hf|]. }
  destruct (run_cases env sched actions w2)
    as [(e & _ & ->)|(_ & w3 & (Ha & _ & Ht & evs & He & Hf) & [[e ->]| ->])]; simpl.
  - repeat split; try done. eexists [_; _; _]. split; [by rewrite <- !app_assoc|].
    intros pk fields v raised H. absent_event H.
  - rewrite Ha. split; [done|]. split; [intros k t Hk; by apply Ht|].
    exists (EvAgentQuery :: EvConnect None :: evs). split.
    + rewrite He. simpl. by rewrite <- !app_assoc.
    + intros pk fields v raised H.
      apply elem_of_cons in H as [H|H]; [discriminate|].
      apply elem_of_cons in H as [H|H]; [discriminate|]. by eapply Hsaves.
  - rewrite Ha. split; [done|]. split; [intros k t Hk; by apply Ht|].
    exists (EvAgentQuery :: EvConnect None :: evs ++ [EvFlush; EvClose])%list. split.
    + rewrite He. simpl. by rewrite <- !app_assoc.
    + intros pk fields v raised H.
      apply elem_of_cons in H as [H|H]; [discriminate|].
      apply elem_of_cons in H as [H|H]; [discriminate|].
      apply elem_of_app in H as [H|H]; [by eapply Hsaves|]. absent_event H.
Qed.

(** X13: [_run] flushes and closes the connection exactly when it connected
    and no coroutine raised: after a connect error, and after an exception
    out of [gather], the trace has gained neither a flush nor a close. *)
Theorem connection_closed_only_on_success env sched actions w :
  ∃ evs, trace (_run env sched actions w).2 = (trace w ++ evs)%list
    ∧ ((_run env sched actions w).1 = inr None ↔ EvClose ∈ evs)
    ∧ ((_run env sched actions w).1 = inr None ↔ EvFlush ∈ evs).
Proof.
  assert (∀ evs e, Forall (λ e, handler_event e = true) evs → e ∈ evs →
            e ≠ EvClose ∧ e ≠ EvFlush) as Hno.
  { intros evs e Hf Hin. rewrite Forall_forall in Hf. specialize (Hf e Hin).
    split; intros ->; discriminate. }
  destruct (run_cases env sched actions w)
    as [(e & _ & ->)|(_ & w3 & (_ & _ & _ & evs & He & Hf) & [[e ->]| ->])]; simpl.
  - eexists [_; _]. split; [by rewrite <- !app_assoc|].
    split; (split; [discriminate|intros H; absent_event H]).
  - exists (EvConnect None :: evs). split; [rewrite He; simpl; by rewrite <- !app_assoc|].
    split; (split; [discriminate|]); intros H;
      apply elem_of_cons in H as [H|H]; try discriminate;
      destruct (Hno _ _ Hf H); done.
  - exists (EvConnect None :: evs ++ [EvFlush; EvClose])%list.
    split; [rewrite He; simpl; by rewrite <- !app_assoc|].
    split; (split; [intros _|done]); rewrite !elem_of_cons, elem_of_app, !elem_of_cons;
      auto.
Qed.

Lemma invocation_reads_agents_and_tasks_witness :
  agents (db (sync_scheduled_tasks (Fleet.env "ok") "celery@worker1" [] Fleet.world0).2)
  = agents (db Fleet.world0)
  ∧ (∀ k t, autotasks (db (sync_scheduled_tasks (Fleet.env "ok") "celery@worker1" []
                             Fleet.world0).2) !! k = Some t →
            autotasks (db Fleet.world0) !! k = Some t)
  ∧ ∃ evs, trace (sync_scheduled_tasks (Fleet.env "ok") "celery@worker1" [] Fleet.world0).2
           = (trace Fleet.world0 ++ evs)%list
      ∧ ∀ pk fields v raised, EvSave pk fields v raised ∈ evs → fields = ["sync_status"].
Proof.
  apply (invocation_reads_agents_and_tasks (Fleet.env "ok") "celery@worker1" [] Fleet.world0).
  intros s. reflexivity.
Defined.

Lemma connection_closed_only_on_success_witness :
  ∃ evs, trace (_run Fleet.env_down [] [Fleet.item7 "create"] Fleet.world0).2
         = (trace Fleet.world0 ++ evs)%list
    ∧ ((_run Fleet.env_down [] [Fleet.item7 "create"] Fleet.world0).1 = inr None ↔ EvClose ∈ evs)
    ∧ ((_run Fleet.env_down [] [Fleet.item7 "create"] Fleet.world0).1 = inr None ↔ EvFlush ∈ evs).
Proof.
  apply (connection_closed_only_on_success Fleet.env_down [] [Fleet.item7 "create"] Fleet.world0).
Defined.

(** ** The planner and the handler together *)










(** ** Errors of the coroutine run alone *)




Lemma cascade_lookup (tid : nat) (m : gmap (nat * nat) TaskResult.t) a k :
  filter (λ kv, kv.1.2 ≠ tid) m !! (a, k) = if decide (k = tid) then None else m !! (a, k).
Proof.
  case_decide as Hk.
  - apply map_lookup_filter_None. right. intros x _ Hx. by apply Hx.
  - destruct (m !! (a, k)) as [x|] eqn:Hm.
    + by apply map_lookup_filter_Some.
    + apply map_lookup_filter_None. by left.
Qed.

Lemma delete_failed_condition r :
  negb (String.eqb r "ok")
  && negb (str_contains "The system cannot find the file specified" r)
  = negb (delete_succeeded r).
Proof. unfold delete_succeeded. by rewrite negb_orb. Qed.







Lemma asave_row_gone env tr w :
  taskresults (db w) !! (TaskResult.agent tr, TaskResult.task tr) = None →
  asave_sync_status env tr w
  = (Some DatabaseError,
     emit (EvSave (TaskResult.id tr) ["sync_status"] (TaskResult.sync_status tr)
             (Some DatabaseError)) w).
Proof.
  intros H. unfold asave_sync_status. rewrite H. by rewrite andb_false_r.
Qed.

(** X19: a policy task has one TaskResult per agent, and deleting the task
    deletes them all.  Once one coroutine has deleted the task, the save of
    another coroutine on a TaskResult of that task finds no row and raises
    DatabaseError: a create or modify coroutine ends with that exception,
    while a delete coroutine whose own delete failed swallows it and
    returns; neither changes the database. *)
Theorem save_after_the_task_is_deleted env it task task' tr r w :
  TaskResult.task tr = AutomatedTask.id task →
  (∃ w', create_modify_branch env it task' tr r (adelete_task task w)
         = (Raised DatabaseError, w')
     ∧ db w' = db (adelete_task task w))
  ∧ (delete_succeeded r = false →
     ∃ w', delete_branch env it task' tr r (adelete_task task w) = (Returned, w')
       ∧ db w' = db (adelete_task task w)).
Proof.
  intros Htr.
  assert (∀ v w0, db w0 = db (adelete_task task w) →
            asave_sync_status env (TaskResult.set_sync_status v tr) w0
            = (Some DatabaseError,
               emit (EvSave (TaskResult.id tr) ["sync_status"] v (Some DatabaseError)) w0))
    as Hsave.
  { intros v w0 Hdb.
    rewrite asave_row_gone; [by destruct tr|].
    rewrite Hdb. simpl.
    replace (TaskResult.task (TaskResult.set_sync_status v tr))
      with (AutomatedTask.id task) by (by destruct tr).
    by rewrite cascade_lookup, decide_True. }
  split.
  - destruct (create_modify_branch_save env it task' tr r (adelete_task task w))
      as (v & l & ->).
    rewrite Hsave by done. eauto.
  - intros Hfail. unfold delete_branch.
    rewrite delete_failed_condition, Hfail. simpl.
    rewrite Hsave by done. eauto.
Qed.

Lemma save_after_the_task_is_deleted_witness :
  (∃ w', create_modify_branch (Fleet.env "busy") (Fleet.item7 "modify") Fleet.t7
           (Fleet.tr7 NOT_SYNCED) "busy" (adelete_task Fleet.t7 (Fleet.world7 NOT_SYNCED))
         = (Raised DatabaseError, w')
     ∧ db w' = db (adelete_task Fleet.t7 (Fleet.world7 NOT_SYNCED)))
  ∧ (∃ w', delete_branch (Fleet.env "busy") (Fleet.item7 "delete") Fleet.t7
             (Fleet.tr7 PENDING_DELETION) "busy"
             (adelete_task Fleet.t7 (Fleet.world7 PENDING_DELETION))
           = (Returned, w')
       ∧ db w' = db (adelete_task Fleet.t7 (Fleet.world7 PENDING_DELETION))).
Proof.
  split.
  - apply (proj1 (save_after_the_task_is_deleted (Fleet.env "busy") (Fleet.item7 "modify")
                    Fleet.t7 Fleet.t7 (Fleet.tr7 NOT_SYNCED) "busy"
                    (Fleet.world7 NOT_SYNCED) eq_refl)).
  - apply (proj2 (save_after_the_task_is_deleted (Fleet.env "busy") (Fleet.item7 "delete")
                    Fleet.t7 Fleet.t7 (Fleet.tr7 PENDING_DELETION) "busy"
                    (Fleet.world7 PENDING_DELETION) eq_refl)).
    reflexivity.
Defined.

(** ** [resolve_alerts_task] *)








(** ** [cache_db_fields_task] *)

Lemma failing_data_eta d :
  FailingData.error d = false → FailingData.warning d = false →
  d = FailingData.mk false false.
Proof. destruct d as [e w]. simpl. by intros -> ->. Qed.

Lemma agent_loop_passable d b rest :
  passable b →
  agent_loop d (b :: rest)
  = agent_loop
      (let data1 := if checks_warning_now b then FailingData.set_warning d else d in
       if negb (FailingData.error data1) && negb (FailingData.warning data1)
       then task_loop data1 (MonitoredAgent.tasks b) else data1) rest.
Proof.
  intros (Hm & Ho & Hf). by rewrite agent_loop_unfold, Hm, Ho, Hf.
Qed.

Lemma agent_loop_quiet l1 rest :
  Forall passable l1 → Forall quiet l1 →
  agent_loop (FailingData.mk false false) (l1 ++ rest)
  = agent_loop (FailingData.mk false false) rest.
Proof.
  induction 1 as [|b l1 Hb Hl IH]; [done|].
  intros Hq. apply Forall_cons in Hq as [[Hw Ht] Hq].
  rewrite <- app_comm_cons, agent_loop_passable by done.
  rewrite Hw. simpl. rewrite Ht. by apply IH.
Qed.

(** Where a raised "error" comes from. *)
Lemma agent_loop_error_origin d l :
  FailingData.error (agent_loop d l) = true →
  FailingData.error d = false →
  ∃ l1 a l2, l = (l1 ++ a :: l2)%list
    ∧ Forall passable l1
    ∧ MonitoredAgent.maintenance_mode a = false
    ∧ (overdue_alerting a = true ∨ checks_failing_now a = true
       ∨ (FailingData.warning d = false
          ∧ Forall quiet l1
          ∧ checks_warning_now a = false
          ∧ FailingData.error
              (task_loop (FailingData.mk false false) (MonitoredAgent.tasks a)) = true)).
Proof.
  revert d. induction l as [|b rest IH]; intros d; [simpl; congruence|].
  rewrite agent_loop_unfold.
  destruct (MonitoredAgent.maintenance_mode b) eqn:Hm; [congruence|].
  destruct (overdue_alerting b) eqn:Ho.
  { intros _ _. exists [], b, rest. auto. }
  destruct (checks_failing_now b) eqn:Hf.
  { intros _ _. exists [], b, rest. cbv zeta. auto 6. }
  cbv zeta. intros H Hd.
  destruct (checks_warning_now b) eqn:Hw.
  - simpl in H. rewrite andb_false_r in H.
    apply IH in H as (l1 & a & l2 & -> & Hp & Ha & Hc); [|done].
    exists (b :: l1), a, l2. split; [done|]. split; [by constructor|].
    split; [done|]. destruct Hc as [Hc|[Hc|(Hc & _)]]; [auto|auto|done].
  - destruct (FailingData.warning d) eqn:Hwd.
    + rewrite Hd in H. simpl in H.
      apply IH in H as (l1 & a & l2 & -> & Hp & Ha & Hc); [|done].
      exists (b :: l1), a, l2. split; [done|]. split; [by constructor|].
      split; [done|]. destruct Hc as [Hc|[Hc|(Hc & _)]]; [auto|auto|congruence].
    + rewrite Hd in H. simpl in H.
      rewrite (failing_data_eta d Hd Hwd) in H.
      destruct (FailingData.error
                  (task_loop (FailingData.mk false false) (MonitoredAgent.tasks b))) eqn:He.
      * exists [], b, rest. split; [done|]. split; [constructor|]. split; [done|].
        right. right. by repeat split.
      * apply IH in H as (l1 & a & l2 & -> & Hp & Ha & Hc); [|done].
        exists (b :: l1), a, l2. split; [done|]. split; [by constructor|].
        split; [done|]. destruct Hc as [Hc|[Hc|(Hc & Hq & Hc')]]; [auto|auto|].
        right. right. split; [done|]. split; [|done].
        constructor; [|done]. split; [done|]. by apply failing_data_eta.
Qed.

(** Where a raised "warning" comes from. *)
Lemma agent_loop_warning_origin d l :
  FailingData.warning (agent_loop d l) = true →
  FailingData.warning d = false →
  ∃ l1 a l2, l = (l1 ++ a :: l2)%list
    ∧ Forall passable l1
    ∧ MonitoredAgent.maintenance_mode a = false
    ∧ overdue_alerting a = false
    ∧ (checks_warning_now a = true
       ∨ (FailingData.error d = false
          ∧ Forall quiet l1
          ∧ checks_failing_now a = false
          ∧ FailingData.warning
              (task_loop (FailingData.mk false false) (MonitoredAgent.tasks a)) = true)).
Proof.
  revert d. induction l as [|b rest IH]; intros d; [simpl; congruence|].
  rewrite agent_loop_unfold.
  destruct (MonitoredAgent.maintenance_mode b) eqn:Hm; [congruence|].
  destruct (overdue_alerting b) eqn:Ho; [simpl; congruence|].
  cbv zeta. destruct (checks_warning_now b) eqn:Hw.
  { intros _ _. exists [], b, rest. auto 6. }
  destruct (checks_failing_now b) eqn:Hf; [simpl; congruence|].
  intros H Hd. rewrite Hd in H.
  destruct (FailingData.error d) eqn:Hed; simpl in H.
  - apply IH in H as (l1 & a & l2 & -> & Hp & Ha & Hoa & Hc); [|done].
    exists (b :: l1), a, l2. split; [done|]. split; [by constructor|].
    split; [done|]. split; [done|]. destruct Hc as [Hc|(Hc & _)]; [auto|congruence].
  - rewrite (failing_data_eta d Hed Hd) in H.
    destruct (FailingData.warning
                (task_loop (FailingData.mk false false) (MonitoredAgent.tasks b))) eqn:He.
    + exists [], b, rest. split; [done|]. split; [constructor|]. split; [done|].
      split; [done|]. right. by repeat split.
    + apply IH in H as (l1 & a & l2 & -> & Hp & Ha & Hoa & Hc); [|done].
      exists (b :: l1), a, l2. split; [done|]. split; [by constructor|].
      split; [done|]. split; [done|]. destruct Hc as [Hc|(Hc & Hq & Hc')]; [auto|].
      right. split; [done|]. split; [|done].
      constructor; [|done]. split; [done|]. by apply failing_data_eta.
Qed.

Lemma passable_not_in_maintenance l :
  Forall passable l → Forall (λ b, MonitoredAgent.maintenance_mode b = false) l.
Proof. intros H. eapply Forall_impl; [done|]. by intros b (Hm & _). Qed.

(** A cause of "error" raises it again in any scan that reaches it. *)
Lemma agent_loop_error_replay l1 a l2 :
  Forall passable l1 →
  MonitoredAgent.maintenance_mode a = false →
  overdue_alerting a = true ∨ checks_failing_now a = true
  ∨ (Forall quiet l1
     ∧ checks_warning_now a = false
     ∧ FailingData.error
         (task_loop (FailingData.mk false false) (MonitoredAgent.tasks a)) = true) →
  FailingData.error (agent_loop (FailingData.mk false false) (l1 ++ a :: l2)) = true.
Proof.
  intros Hp Ha [Hc|[Hc|(Hq & Hw & Ht)]].
  - eapply agent_loop_reports_hard_failure; [|by left].
    split; [done|]. split; [by apply passable_not_in_maintenance|done].
  - eapply agent_loop_reports_hard_failure; [|by right].
    split; [done|]. split; [by apply passable_not_in_maintenance|done].
  - rewrite agent_loop_quiet by done. rewrite agent_loop_unfold, Ha, Hw.
    destruct (overdue_alerting a); [done|]. cbv zeta.
    destruct (checks_failing_now a); [done|]. simpl.
    by apply agent_loop_mono.
Qed.

Lemma agent_loop_checks_warning d l1 a l2 :
  Forall passable l1 →
  MonitoredAgent.maintenance_mode a = false →
  overdue_alerting a = false →
  checks_warning_now a = true →
  FailingData.warning (agent_loop d (l1 ++ a :: l2)) = true.
Proof.
  intros Hp Ha Ho Hw. revert d. induction Hp as [|b l1 Hb Hl IH]; intros d.
  - simpl app. rewrite agent_loop_unfold, Ha, Ho, Hw. cbv zeta.
    destruct (checks_failing_now a); [done|]. simpl. rewrite andb_false_r.
    by apply agent_loop_mono.
  - rewrite <- app_comm_cons, agent_loop_passable by done. apply IH.
Qed.

(** A cause of "warning" raises it again in any scan that reaches it. *)
Lemma agent_loop_warning_replay l1 a l2 :
  Forall passable l1 →
  MonitoredAgent.maintenance_mode a = false →
  overdue_alerting a = false →
  checks_warning_now a = true
  ∨ (Forall quiet l1
     ∧ checks_failing_now a = false
     ∧ FailingData.warning
         (task_loop (FailingData.mk false false) (MonitoredAgent.tasks a)) = true) →
  FailingData.warning (agent_loop (FailingData.mk false false) (l1 ++ a :: l2)) = true.
Proof.
  intros Hp Ha Ho [Hc|(Hq & Hf & Ht)]; [by apply agent_loop_checks_warning|].
  destruct (checks_warning_now a) eqn:Hw; [by apply agent_loop_checks_warning|].
  rewrite agent_loop_quiet by done. rewrite agent_loop_unfold, Ha, Ho, Hw, Hf.
  simpl. by apply agent_loop_mono.
Qed.

Section filtered.
Context {A B : Type} (f : A → B).

Lemma fmap_filter_split (P : A → bool) l l1 a l2 :
  f <$> filter (λ x, P x = true) l = (l1 ++ a :: l2)%list →
  ∃ g1 x g2, l = (g1 ++ x :: g2)%list ∧ P x = true ∧ f x = a
    ∧ f <$> filter (λ x, P x = true) g1 = l1.
Proof.
  revert l1. induction l as [|y g IH]; intros l1.
  - simpl. by destruct l1.
  - rewrite filter_cons. destruct (decide (P y = true)) as [Hy|Hy].
    + rewrite fmap_cons. destruct l1 as [|b l1]; simpl.
      * intros [= <- _]. exists [], y, g. by rewrite filter_nil.
      * intros [= <- H]. apply IH in H as (g1 & x & g2 & -> & Hx & Hfx & <-).
        exists (y :: g1), x, g2. split; [done|]. split; [done|]. split; [done|].
        rewrite filter_cons. by destruct (decide (P y = true)).
    + intros H. apply IH in H as (g1 & x & g2 & -> & Hx & Hfx & <-).
      exists (y :: g1), x, g2. split; [done|]. split; [done|]. split; [done|].
      rewrite filter_cons. by destruct (decide (P y = true)).
Qed.

Lemma fmap_filter_narrow (P Q : A → bool) (R : B → Prop) g :
  (∀ x, Q x = true → P x = true) →
  Forall R (f <$> filter (λ x, P x = true) g) →
  Forall R (f <$> filter (λ x, Q x = true) g).
Proof.
  intros Hsub. rewrite !Forall_forall. intros H b Hb.
  apply list_elem_of_fmap in Hb as (x & -> & Hx).
  apply list_elem_of_filter in Hx as [Hq Hx].
  apply H. apply list_elem_of_fmap. exists x. split; [done|].
  apply list_elem_of_filter. auto.
Qed.

Lemma fmap_filter_middle (Q : A → bool) g1 x g2 :
  Q x = true →
  f <$> filter (λ x, Q x = true) (g1 ++ x :: g2)%list
  = ((f <$> filter (λ x, Q x = true) g1)
     ++ f x :: (f <$> filter (λ x, Q x = true) g2))%list.
Proof.
  intros Hx. rewrite filter_app, filter_cons.
  destruct (decide (Q x = true)); [|done]. by rewrite fmap_app, fmap_cons.
Qed.

End filtered.

Lemma in_client_site sites client a :
  in_client sites client a = true →
  ∃ s, s ∈ sites ∧ in_site s a = true ∧ SiteRow.client s = ClientRow.id client.
Proof.
  unfold in_client. intros H. apply existsb_exists in H as (s & Hs & H).
  apply andb_true_iff in H as [Hin Hc]. exists s.
  split; [by apply list_elem_of_In|]. split; [done|]. by apply Nat.eqb_eq.
Qed.

Lemma in_site_in_client sites client s a :
  s ∈ sites → SiteRow.client s = ClientRow.id client →
  in_site s a = true → in_client sites client a = true.
Proof.
  intros Hs Hc Hin. unfold in_client. apply existsb_exists. exists s.
  split; [by apply list_elem_of_In|]. rewrite Hin. by apply Nat.eqb_eq.
Qed.

(** A scan of the agents of a client that raises a flag passes an agent
    whose own site's scan raises the same flag. *)
Lemma client_error_site inv client :
  FailingData.error (_get_failing_data (client_agents inv client)) = true →
  ∃ s, s ∈ inv_sites inv ∧ SiteRow.client s = ClientRow.id client
    ∧ FailingData.error (_get_failing_data (site_agents inv s)) = true.
Proof.
  unfold _get_failing_data. intros H.
  apply agent_loop_error_origin in H as (l1 & a & l2 & Hl & Hp & Ha & Hc); [|done].
  unfold client_agents in Hl.
  apply fmap_filter_split in Hl as (g1 & x & g2 & Hg & Hx & <- & <-).
  apply in_client_site in Hx as (s & Hs & Hin & Hcl).
  exists s. split; [done|]. split; [done|].
  unfold site_agents. rewrite Hg, fmap_filter_middle by done.
  assert (∀ R, Forall R (SiteAgent.row <$>
                 filter (λ x, in_client (inv_sites inv) client x = true) g1) →
               Forall R (SiteAgent.row <$> filter (λ x, in_site s x = true) g1)) as Hn.
  { intros R. apply fmap_filter_narrow. intros y. by apply in_site_in_client. }
  apply agent_loop_error_replay; [by apply Hn|done|].
  destruct Hc as [Hc|[Hc|(_ & Hq & Hw & Ht)]]; [auto|auto|].
  right. right. split; [by apply Hn|done].
Qed.

Lemma client_warning_site inv client :
  FailingData.warning (_get_failing_data (client_agents inv client)) = true →
  ∃ s, s ∈ inv_sites inv ∧ SiteRow.client s = ClientRow.id client
    ∧ FailingData.warning (_get_failing_data (site_agents inv s)) = true.
Proof.
  unfold _get_failing_data. intros H.
  apply agent_loop_warning_origin in H as (l1 & a & l2 & Hl & Hp & Ha & Ho & Hc); [|done].
  unfold client_agents in Hl.
  apply fmap_filter_split in Hl as (g1 & x & g2 & Hg & Hx & <- & <-).
  apply in_client_site in Hx as (s & Hs & Hin & Hcl).
  exists s. split; [done|]. split; [done|].
  unfold site_agents. rewrite Hg, fmap_filter_middle by done.
  assert (∀ R, Forall R (SiteAgent.row <$>
                 filter (λ x, in_client (inv_sites inv) client x = true) g1) →
               Forall R (SiteAgent.row <$> filter (λ x, in_site s x = true) g1)) as Hn.
  { intros R. apply fmap_filter_narrow. intros y. by apply in_site_in_client. }
  apply agent_loop_warning_replay; [by apply Hn|done|done|].
  destruct Hc as [Hc|(_ & Hq & Hf & Ht)]; [auto|].
  right. split; [by apply Hn|done].
Qed.

(** The first loop changes no column the second one joins on. *)
Lemma in_client_cache_sites inv client a :
  in_client (inv_sites (cache_sites inv)) client a = in_client (inv_sites inv) client a.
Proof.
  unfold in_client, cache_sites. simpl.
  induction (inv_sites inv) as [|s sites IH]; [done|].
  rewrite fmap_cons. simpl. by rewrite IH.
Qed.

Lemma client_agents_cache_sites inv client :
  client_agents (cache_sites inv) client = client_agents inv client.
Proof.
  unfold client_agents. f_equal.
  apply list_filter_iff. intros a. by rewrite in_client_cache_sites.
Qed.

(** X22: after the task, a client is flagged only if one of its sites is:
    a client row with "error" (or "warning") set in failing_checks has a
    site row with the same flag set, although the client's scan runs over
    the agents of all its sites in one pass. *)
Theorem flagged_client_has_a_flagged_site inv c :
  c ∈ inv_clients (cache_db_fields_task inv) →
  (FailingData.error (ClientRow.failing_checks c) = true →
   ∃ s, s ∈ inv_sites (cache_db_fields_task inv)
     ∧ SiteRow.client s = ClientRow.id c
     ∧ FailingData.error (SiteRow.failing_checks s) = true)
  ∧ (FailingData.warning (ClientRow.failing_checks c) = true →
     ∃ s, s ∈ inv_sites (cache_db_fields_task inv)
       ∧ SiteRow.client s = ClientRow.id c
       ∧ FailingData.warning (SiteRow.failing_checks s) = true).
Proof.
  unfold cache_db_fields_task, cache_clients. simpl. intros Hc.
  apply list_elem_of_fmap in Hc as (c0 & -> & Hc0). simpl.
  rewrite client_agents_cache_sites.
  assert (∀ s, s ∈ inv_sites inv →
            SiteRow.mk (SiteRow.id s) (SiteRow.client s) (_get_failing_data (site_agents inv s))
            ∈ inv_sites (cache_sites inv)) as Hrow.
  { intros s Hs. unfold cache_sites. simpl. apply list_elem_of_fmap. by exists s. }
  split; intros H.
  - apply client_error_site in H as (s & Hs & Hcl & He).
    eexists. split; [by apply Hrow|]. by split.
  - apply client_warning_site in H as (s & Hs & Hcl & He).
    eexists. split; [by apply Hrow|]. by split.
Qed.

Lemma flagged_client_has_a_flagged_site_witness :
  ∃ s, s ∈ inv_sites (cache_db_fields_task Estate.inv)
    ∧ SiteRow.client s = 1
    ∧ FailingData.error (SiteRow.failing_checks s) = true.
Proof.
  apply (proj1 (flagged_client_has_a_flagged_site Estate.inv
                  (ClientRow.mk 1 (FailingData.mk true true)) ltac:(vm_compute; left))).
  reflexivity.
Defined.

Lemma in_client_same_keys (g : SiteRow.t → FailingData.t) sites client a :
  in_client ((λ s, SiteRow.mk (SiteRow.id s) (SiteRow.client s) (g s)) <$> sites) client a
  = in_client sites client a.
Proof.
  unfold in_client. induction sites as [|s sites IH]; [done|].
  rewrite fmap_cons. simpl. by rewrite IH.
Qed.

(** X23: the task is idempotent: what it stores depends on the agents and
    on the keys of the rows only, not on the failing_checks stored before,
    so a second run in a row stores the same values again. *)
Theorem cache_db_fields_task_idempotent inv :
  cache_db_fields_task (cache_db_fields_task inv) = cache_db_fields_task inv.
Proof.
  destruct inv as [sites clients agents].
  unfold cache_db_fields_task, cache_clients, cache_sites. simpl. f_equal.
  - rewrite <- list_fmap_compose. apply list_fmap_ext. intros i s _. reflexivity.
  - rewrite <- list_fmap_compose. apply list_fmap_ext. intros i c _. simpl.
    f_equal. f_equal. unfold client_agents. simpl. f_equal.
    apply list_filter_iff. intros a. by rewrite !in_client_same_keys.
Qed.

(** ** [sync_mesh_perms_task] *)


Lemma dict_get_set {V} k (v : V) d k0 :
  dict_get k0 (dict_set k v d) = if bool_decide (k = k0) then Some v else dict_get k0 d.
Proof.
  induction d as [|[k' v'] d IH]; simpl; [done|].
  destruct (bool_decide_reflect (k' = k)) as [->|Hk]; simpl.
  - by destruct (bool_decide (k = k0)).
  - destruct (bool_decide_reflect (k' = k0)) as [->|Hk0].
    + by rewrite bool_decide_eq_false_2 by congruence.
    + done.
Qed.

Lemma dict_get_keys {V} k (d : list (string * V)) :
  is_Some (dict_get k d) ↔ k ∈ d.*1.
Proof.
  induction d as [|[k' v'] d IH]; simpl.
  - rewrite elem_of_nil. split; [by intros [? ?]|done].
  - rewrite elem_of_cons. destruct (bool_decide_reflect (k' = k)) as [->|Hk].
    + split; [by left|by eexists].
    + rewrite IH. split; [by right|]. intros [?|?]; [congruence|done].
Qed.




Lemma user_loop_calls env company dict agents users n c :
  c ∈ (user_loop env company dict agents users n).2 →
  ∃ u m, u ∈ users ∧ has_mesh_perms env u = true
    ∧ c ∈ user_calls env company dict agents m u.
Proof.
  revert n. induction users as [|u rest IH]; intros n; simpl.
  - intros H. by apply elem_of_nil in H.
  - destruct (has_mesh_perms env u) eqn:Hp; simpl.
    + specialize (IH (n + 2)).
      destruct (user_loop env company dict agents rest (n + 2)) as [ids calls].
      simpl in *. rewrite elem_of_app. intros [Hc|Hc].
      * exists u, n. split; [by left|done].
      * apply IH in Hc as (v & m & Hv & Hpv & Hc). exists v, m. split; [by right|done].
    + intros Hc. apply IH in Hc as (v & m & Hv & Hpv & Hc).
      exists v, m. split; [by right|done].
Qed.

Lemma user_loop_calls_of_user env company dict agents users n u :
  u ∈ users → has_mesh_perms env u = true →
  ∃ m, ∀ c, c ∈ user_calls env company dict agents m u →
            c ∈ (user_loop env company dict agents users n).2.
Proof.
  revert n. induction users as [|v rest IH]; intros n Hu Hp.
  - by apply elem_of_nil in Hu.
  - simpl. apply elem_of_cons in Hu as [<-|Hu].
    + rewrite Hp. simpl.
      destruct (user_loop env company dict agents rest (n + 2)) as [ids calls].
      exists n. intros c Hc. simpl. apply elem_of_app. by left.
    + destruct (has_mesh_perms env v); simpl.
      * destruct (IH (n + 2) Hu Hp) as (m & Hm).
        destruct (user_loop env company dict agents rest (n + 2)) as [ids calls].
        exists m. intros c Hc. simpl in *. apply elem_of_app. right. by apply Hm.
      * by apply IH.
Qed.


Lemma filter_nil_iff {A} (P : A → Prop) `{∀ x, Decision (P x)} (l : list A) :
  filter P l = [] ↔ ∀ x, x ∈ l → ¬ P x.
Proof.
  split.
  - intros Hf x Hx Hp. by apply (filter_nil_not_elem_of P l x).
  - intros Hall. induction l as [|x l IH]; [done|].
    rewrite filter_cons. destruct (decide (P x)) as [Hp|Hp].
    + exfalso. apply (Hall x); [by left|done].
    + apply IH. intros y Hy. apply Hall. by right.
Qed.

Lemma foldl_dict_get_frame acc (l : list MeshUser.t) k :
  k ∉ MeshUser._id <$> l →
  dict_get k (foldl (λ d i, dict_set (MeshUser._id i) i d) acc l) = dict_get k acc.
Proof.
  revert acc. induction l as [|i l IH]; intros acc Hk; simpl; [done|].
  rewrite fmap_cons in Hk. apply not_elem_of_cons in Hk as [Hi Hk].
  rewrite IH by done. rewrite dict_get_set. by rewrite bool_decide_eq_false_2.
Qed.

Lemma foldl_dict_get acc (l : list MeshUser.t) e :
  NoDup (MeshUser._id <$> l) → e ∈ l →
  dict_get (MeshUser._id e) (foldl (λ d i, dict_set (MeshUser._id i) i d) acc l) = Some e.
Proof.
  revert acc. induction l as [|i l IH]; intros acc Hnd He; simpl.
  - by apply elem_of_nil in He.
  - rewrite fmap_cons in Hnd. apply NoDup_cons in Hnd as [Hi Hnd].
    apply elem_of_cons in He as [->|He].
    + rewrite foldl_dict_get_frame by done. rewrite dict_get_set.
      by rewrite bool_decide_eq_true_2.
    + by apply IH.
Qed.

Lemma foldl_dict_get_Some acc (l : list MeshUser.t) k e :
  dict_get k (foldl (λ d i, dict_set (MeshUser._id i) i d) acc l) = Some e →
  dict_get k acc = Some e ∨ (e ∈ l ∧ MeshUser._id e = k).
Proof.
  revert acc. induction l as [|i l IH]; intros acc; simpl; [by left|].
  intros H. apply IH in H as [H|[He Hk]].
  - rewrite dict_get_set in H. case_bool_decide as Hi; [|by left].
    injection H as <-. right. split; [by left|done].
  - right. split; [by right|done].
Qed.

(** What a lookup in [mesh_users_dict] gives. *)
Lemma mesh_users_dict_get raw e :
  NoDup (MeshUser._id <$> raw) → e ∈ raw → mesh_id_matches (MeshUser._id e) = true →
  dict_get (MeshUser._id e) (mesh_users_dict raw) = Some e.
Proof.
  intros Hnd He Hm. apply foldl_dict_get.
  - eapply sublist_NoDup; [done|]. apply fmap_sublist, sublist_filter.
  - by apply list_elem_of_filter.
Qed.

Lemma mesh_users_dict_get_Some raw k e :
  dict_get k (mesh_users_dict raw) = Some e → e ∈ raw ∧ MeshUser._id e = k.
Proof.
  intros H. apply foldl_dict_get_Some in H as [H|[He Hk]]; [done|].
  apply list_elem_of_filter in He as [_ He]. done.
Qed.

Lemma trmm_agents_elem env agents u l :
  l ∈ trmm_agents env agents u
  ↔ ∃ a, a ∈ agents ∧ may_access env u a = true ∧ l = link_of a.
Proof.
  unfold trmm_agents, may_access.
  destruct (User.is_superuser u || is_superuser env u); simpl.
  - rewrite list_elem_of_fmap. split.
    + intros (a & -> & Ha). by exists a.
    + intros (a & Ha & _ & ->). by exists a.
  - rewrite list_elem_of_fmap. split.
    + intros (a & -> & Ha). apply list_elem_of_filter in Ha as [Hp Ha]. by exists a.
    + intros (a & Ha & Hp & ->). exists a. split; [done|]. by apply list_elem_of_filter.
Qed.

(** The calls of one user that link an agent. *)
Lemma user_calls_add env company dict agents n u uid node host :
  add_agent_to_user uid node host ∈ user_calls env company dict agents n u
  ↔ uid = User.mesh_user_id u
    ∧ MeshLink.mk node host ∈ trmm_agents env agents u
    ∧ ∀ e, dict_get (User.mesh_user_id u) dict = Some e →
           node ∉ default [] (MeshUser.links e).
Proof.
  unfold user_calls, new_user_calls, existing_user_calls.
  destruct (dict_get (User.mesh_user_id u) dict) as [e|]; simpl.
  - rewrite !elem_of_app. split.
    + intros [H|[H|H]].
      * apply list_elem_of_fmap in H as (l & [= -> -> ->] & Hl).
        apply list_elem_of_filter in Hl as [Hn Hl]. split; [done|].
        split; [by destruct l|]. by intros e' [= <-].
      * apply list_elem_of_fmap in H as (? & ? & _). discriminate.
      * destruct (MeshUser.realname e) as [name|].
        -- case_bool_decide; [|by apply elem_of_nil in H].
           apply list_elem_of_singleton in H. discriminate.
        -- apply list_elem_of_singleton in H. discriminate.
    + intros (-> & Hl & Hn). left. apply list_elem_of_fmap.
      exists (MeshLink.mk node host). split; [done|].
      apply list_elem_of_filter. split; [by apply Hn|done].
  - rewrite elem_of_cons. split.
    + intros [H|H]; [discriminate|].
      apply list_elem_of_fmap in H as (l & [= -> -> ->] & Hl). split; [done|].
      split; [by destruct l|done].
    + intros (-> & Hl & _). right. apply list_elem_of_fmap.
      by exists (MeshLink.mk node host).
Qed.

(** The calls of one user that unlink an agent. *)
Lemma user_calls_remove env company dict agents n u uid node :
  remove_agent_from_user uid node ∈ user_calls env company dict agents n u
  ↔ uid = User.mesh_user_id u
    ∧ ∃ e, dict_get (User.mesh_user_id u) dict = Some e
        ∧ node ∈ default [] (MeshUser.links e)
        ∧ node ∉ MeshLink.node_id <$> trmm_agents env agents u.
Proof.
  unfold user_calls, new_user_calls, existing_user_calls.
  destruct (dict_get (User.mesh_user_id u) dict) as [e|]; simpl.
  - rewrite !elem_of_app. split.
    + intros [H|[H|H]].
      * apply list_elem_of_fmap in H as (? & ? & _). discriminate.
      * apply list_elem_of_fmap in H as (m & [= -> ->] & Hm).
        apply list_elem_of_filter in Hm as [Hn Hm]. split; [done|]. by exists e.
      * destruct (MeshUser.realname e) as [name|].
        -- case_bool_decide; [|by apply elem_of_nil in H].
           apply list_elem_of_singleton in H. discriminate.
        -- apply list_elem_of_singleton in H. discriminate.
    + intros (-> & e' & [= <-] & Hm & Hn). right. left. apply list_elem_of_fmap.
      exists node. split; [done|]. by apply list_elem_of_filter.
  - rewrite elem_of_cons. split.
    + intros [H|H]; [discriminate|].
      apply list_elem_of_fmap in H as (? & ? & _). discriminate.
    + by intros (_ & e & ? & _).
Qed.

Lemma mesh_plan_user_call env core raw all_users agents c :
  c ∈ mesh_plan env core raw all_users agents →
  (∃ id, c = delete_user_from_mesh id)
  ∨ ∃ u m, u ∈ all_users ∧ synced_user env u = true
      ∧ c ∈ user_calls env (MeshSettings.mesh_company_name core) (mesh_users_dict raw)
              agents m u.
Proof.
  unfold mesh_plan.
  pose proof (user_loop_calls env (MeshSettings.mesh_company_name core)
                (mesh_users_dict raw) agents
                (filter (λ u, in_user_query u = true) all_users) 0 c) as Hcalls.
  destruct (user_loop _ _ _ _ _ _) as [ids calls]. simpl in *.
  rewrite elem_of_app. intros [H|H].
  - right. apply Hcalls in H as (u & m & Hu & Hp & Hc).
    apply list_elem_of_filter in Hu as [Hq Hu]. exists u, m.
    split; [done|]. split; [|done]. unfold synced_user. by rewrite Hq, Hp.
  - left. apply list_elem_of_fmap in H as (id & -> & _). by exists id.
Qed.

Lemma mesh_plan_of_user env core raw all_users agents u :
  u ∈ all_users → synced_user env u = true →
  ∃ m, ∀ c, c ∈ user_calls env (MeshSettings.mesh_company_name core)
                    (mesh_users_dict raw) agents m u →
            c ∈ mesh_plan env core raw all_users agents.
Proof.
  intros Hu Hs. apply andb_true_iff in Hs as [Hq Hp]. unfold mesh_plan.
  destruct (user_loop_calls_of_user env (MeshSettings.mesh_company_name core)
              (mesh_users_dict raw) agents
              (filter (λ u, in_user_query u = true) all_users) 0 u) as (m & Hm);
    [by apply list_elem_of_filter|done|].
  destruct (user_loop _ _ _ _ _ _) as [ids calls]. simpl in *.
  exists m. intros c Hc. apply elem_of_app. left. by apply Hm.
Qed.


(** The calls made are calls of the plan, and all of them when nothing
    raises. *)
Lemma run_calls_plan env plan c : c ∈ (run_calls env plan).1 → c ∈ plan.
Proof.
  unfold run_calls. destruct (mesh_failure env) as [[n msg]|]; [|done].
  destruct (n <? length plan); [|done]. simpl. apply subseteq_take.
Qed.

Lemma run_calls_all env plan :
  mesh_failure env = None → run_calls env plan = (plan, []).
Proof. unfold run_calls. by intros ->. Qed.

Lemma task_calls_plan env oid core all_users agents locks c :
  c ∈ mesh_calls (sync_mesh_perms_task env oid core all_users agents locks) →
  locks !! SYNC_MESH_PERMS_TASK_LOCK = None
  ∧ MeshSettings.sync_mesh_with_trmm core = true
  ∧ ∃ raw, get_mesh_users env = inr raw ∧ c ∈ mesh_plan env core raw all_users agents.
Proof.
  unfold sync_mesh_perms_task.
  destruct (locks !! SYNC_MESH_PERMS_TASK_LOCK); simpl; [by intros H; apply elem_of_nil in H|].
  destruct (MeshSettings.sync_mesh_with_trmm core); simpl;
    [|by intros H; apply elem_of_nil in H].
  destruct (get_mesh_users env) as [msg|raw]; simpl; [by intros H; apply elem_of_nil in H|].
  pose proof (run_calls_plan env (mesh_plan env core raw all_users agents) c) as Hp.
  destruct (run_calls env _) as [calls log]. simpl in *. intros H.
  split; [done|]. split; [done|]. exists raw. auto.
Qed.

Lemma task_calls_all env oid core all_users agents locks raw :
  locks !! SYNC_MESH_PERMS_TASK_LOCK = None →
  MeshSettings.sync_mesh_with_trmm core = true →
  get_mesh_users env = inr raw →
  mesh_failure env = None →
  mesh_calls (sync_mesh_perms_task env oid core all_users agents locks)
  = mesh_plan env core raw all_users agents.
Proof.
  intros Hl Hs Hg Hf. unfold sync_mesh_perms_task. rewrite Hl, Hs, Hg. simpl.
  by rewrite run_calls_all.
Qed.





(** X26: an agent is linked to a MeshCentral account only for a user the
    run synchronises who may access that agent: a superuser, by the field
    or by the role, or a user with permission on the agent. *)
Theorem agent_linked_only_with_permission env oid core all_users agents locks
    uid node host :
  add_agent_to_user uid node host
    ∈ mesh_calls (sync_mesh_perms_task env oid core all_users agents locks) →
  ∃ u a, u ∈ all_users ∧ synced_user env u = true ∧ User.mesh_user_id u = uid
    ∧ a ∈ agents ∧ may_access env u a = true
    ∧ node = "node//" +:+ MeshAgent.hex_mesh_node_id a
    ∧ host = MeshAgent.hostname a.
Proof.
  intros H. apply task_calls_plan in H as (_ & _ & raw & _ & H).
  apply mesh_plan_user_call in H as [(id & ?)|(u & m & Hu & Hs & H)]; [discriminate|].
  apply user_calls_add in H as (-> & Hl & _).
  apply trmm_agents_elem in Hl as (a & Ha & Hp & [= -> ->]).
  by exists u, a.
Qed.

Lemma agent_linked_only_with_permission_witness :
  ∃ u a, u ∈ [Mesh.alice; Mesh.bob; Mesh.carol] ∧ synced_user Mesh.env u = true
    ∧ User.mesh_user_id u = "user//alice___1"
    ∧ a ∈ [Mesh.pc1; Mesh.pc2] ∧ may_access Mesh.env u a = true
    ∧ "node//BBBB" = "node//" +:+ MeshAgent.hex_mesh_node_id a
    ∧ "pc2" = MeshAgent.hostname a.
Proof.
  apply (agent_linked_only_with_permission Mesh.env "celery@worker1" Mesh.core
           [Mesh.alice; Mesh.bob; Mesh.carol] [Mesh.pc1; Mesh.pc2] ∅).
  vm_compute. repeat constructor.
Defined.

(** X27: when no call raises and the ids of MeshCentral are distinct, a
    link of a synchronised user's account to a node that is not an agent
    the user may access is removed. *)
Theorem revoked_links_are_removed env oid core all_users agents locks raw u e node :
  locks !! SYNC_MESH_PERMS_TASK_LOCK = None →
  MeshSettings.sync_mesh_with_trmm core = true →
  get_mesh_users env = inr raw →
  mesh_failure env = None →
  NoDup (MeshUser._id <$> raw) →
  u ∈ all_users → synced_user env u = true →
  e ∈ raw → MeshUser._id e = User.mesh_user_id u →
  mesh_id_matches (MeshUser._id e) = true →
  node ∈ default [] (MeshUser.links e) →
  (∀ a, a ∈ agents → may_access env u a = true →
        "node//" +:+ MeshAgent.hex_mesh_node_id a ≠ node) →
  remove_agent_from_user (User.mesh_user_id u) node
    ∈ mesh_calls (sync_mesh_perms_task env oid core all_users agents locks).
Proof.
  intros Hl Hs Hg Hf Hnd Hu Hsy He Hid Hm Hn Hrev.
  rewrite (task_calls_all env oid core all_users agents locks raw) by done.
  destruct (mesh_plan_of_user env core raw all_users agents u Hu Hsy) as (m & Hplan).
  apply Hplan. apply user_calls_remove. split; [done|]. exists e.
  split; [rewrite <- Hid; by apply mesh_users_dict_get|]. split; [done|].
  intros Hin. apply list_elem_of_fmap in Hin as (l & -> & Hin).
  apply trmm_agents_elem in Hin as (a & Ha & Hp & ->). by apply (Hrev a).
Qed.

Lemma revoked_links_are_removed_witness :
  remove_agent_from_user (User.mesh_user_id Mesh.bob) "node//BBBB" ∈ mesh_calls Mesh.run.
Proof.
  apply (revoked_links_are_removed Mesh.env "celery@worker1" Mesh.core
           [Mesh.alice; Mesh.bob; Mesh.carol] [Mesh.pc1; Mesh.pc2] ∅ Mesh.raw Mesh.bob
           (MeshUser.mk "user//bob___2" (Some ["node//AAAA"; "node//BBBB"]) (Some "Bob B"))
           "node//BBBB").
  - reflexivity.
  - reflexivity.
  - reflexivity.
  - reflexivity.
  - apply (bool_decide_unpack _). vm_compute. exact I.
  - vm_compute. repeat constructor.
  - reflexivity.
  - vm_compute. repeat constructor.
  - reflexivity.
  - reflexivity.
  - vm_compute. repeat constructor.
  - intros a Ha Hp. repeat (apply elem_of_cons in Ha as [->|Ha]); [done|done|].
    by apply elem_of_nil in Ha.
Defined.

(** X28: when no call raises, every agent that a synchronised user may
    access is linked to the user's account by this run unless the account
    of that id in MeshCentral has the link already. *)
Theorem granted_agents_are_linked env oid core all_users agents locks raw u a :
  locks !! SYNC_MESH_PERMS_TASK_LOCK = None →
  MeshSettings.sync_mesh_with_trmm core = true →
  get_mesh_users env = inr raw →
  mesh_failure env = None →
  u ∈ all_users → synced_user env u = true →
  a ∈ agents → may_access env u a = true →
  add_agent_to_user (User.mesh_user_id u)
      ("node//" +:+ MeshAgent.hex_mesh_node_id a) (MeshAgent.hostname a)
    ∈ mesh_calls (sync_mesh_perms_task env oid core all_users agents locks)
  ∨ ∃ e, e ∈ raw ∧ MeshUser._id e = User.mesh_user_id u
      ∧ "node//" +:+ MeshAgent.hex_mesh_node_id a ∈ default [] (MeshUser.links e).
Proof.
  intros Hl Hs Hg Hf Hu Hsy Ha Hp.
  rewrite (task_calls_all env oid core all_users agents locks raw) by done.
  destruct (mesh_plan_of_user env core raw all_users agents u Hu Hsy) as (m & Hplan).
  destruct (dict_get (User.mesh_user_id u) (mesh_users_dict raw)) as [e|] eqn:Hd.
  - destruct (decide ("node//" +:+ MeshAgent.hex_mesh_node_id a
                      ∈ default [] (MeshUser.links e))) as [Hin|Hin].
    + right. apply mesh_users_dict_get_Some in Hd as [He Hid]. by exists e.
    + left. apply Hplan. apply user_calls_add. split; [done|].
      split; [apply trmm_agents_elem; by exists a|]. intros e'. rewrite Hd. by intros [= <-].
  - left. apply Hplan. apply user_calls_add. split; [done|].
    split; [apply trmm_agents_elem; by exists a|]. intros e'. by rewrite Hd.
Qed.

Lemma granted_agents_are_linked_witness :
  add_agent_to_user (User.mesh_user_id Mesh.alice)
      ("node//" +:+ MeshAgent.hex_mesh_node_id Mesh.pc2) (MeshAgent.hostname Mesh.pc2)
    ∈ mesh_calls Mesh.run
  ∨ ∃ e, e ∈ Mesh.raw ∧ MeshUser._id e = User.mesh_user_id Mesh.alice
      ∧ "node//" +:+ MeshAgent.hex_mesh_node_id Mesh.pc2 ∈ default [] (MeshUser.links e).
Proof.
  apply (granted_agents_are_linked Mesh.env "celery@worker1" Mesh.core
           [Mesh.alice; Mesh.bob; Mesh.carol] [Mesh.pc1; Mesh.pc2] ∅ Mesh.raw
           Mesh.alice Mesh.pc2).
  - reflexivity.
  - reflexivity.
  - reflexivity.
  - reflexivity.
  - vm_compute. repeat constructor.
  - reflexivity.
  - vm_compute. repeat constructor.
  - reflexivity.
Defined.

(** X29: for an account that MeshCentral has already, the run makes no
    call exactly when the account is in step: its links are the nodes of
    the agents the user may access and its display name is the one built
    for the user. *)
Theorem account_in_step_needs_no_call existing info :
  existing_user_calls existing info = []
  ↔ (∀ node, node ∈ default [] (MeshUser.links existing)
             ↔ node ∈ MeshLink.node_id <$> UserInfo.links info)
    ∧ MeshUser.realname existing = Some (UserInfo.full_name info).
Proof.
  unfold existing_user_calls. rewrite !app_nil. split.
  - intros (Hadd & Hrem & Hname).
    apply fmap_nil_inv in Hadd. apply fmap_nil_inv in Hrem.
    rewrite filter_nil_iff in Hadd. rewrite filter_nil_iff in Hrem. split.
    + intros node. split.
      * intros Hin. destruct (decide (node ∈ MeshLink.node_id <$> UserInfo.links info))
          as [?|Hn]; [done|]. by destruct (Hrem node Hin).
      * intros Hin. apply list_elem_of_fmap in Hin as (l & -> & Hl).
        destruct (decide (MeshLink.node_id l ∈ default [] (MeshUser.links existing)))
          as [?|Hn]; [done|]. by destruct (Hadd l Hl).
    + destruct (MeshUser.realname existing) as [name|]; [|done].
      case_bool_decide as Hne; [done|]. f_equal.
      by destruct (decide (name = UserInfo.full_name info)).
  - intros (Hlinks & Hname). split; [|split].
    + rewrite (proj2 (filter_nil_iff
                 (λ l, MeshLink.node_id l ∉ default [] (MeshUser.links existing))
                 (UserInfo.links info))); [done|].
      intros l Hl Hn. apply Hn, Hlinks. apply list_elem_of_fmap. by exists l.
    + rewrite (proj2 (filter_nil_iff
                 (λ m, m ∉ MeshLink.node_id <$> UserInfo.links info)
                 (default [] (MeshUser.links existing)))); [done|].
      intros m Hm Hn. by apply Hn, Hlinks.
    + rewrite Hname. by rewrite bool_decide_eq_false_2 by (intros Hne; by apply Hne).
Qed.

Lemma account_in_step_needs_no_call_witness :
  existing_user_calls
    (MeshUser.mk "user//bob___2" (Some ["node//AAAA"]) (Some "Bob B"))
    (UserInfo.mk "user//bob___2" "bob___2" "bob.x@tacticalrmm-do-not-change-x.local"
       "Bob B" [MeshLink.mk "node//AAAA" "pc1"])
  = [].
Proof.
  apply (proj2 (account_in_step_needs_no_call
                  (MeshUser.mk "user//bob___2" (Some ["node//AAAA"]) (Some "Bob B"))
                  (UserInfo.mk "user//bob___2" "bob___2"
                     "bob.x@tacticalrmm-do-not-change-x.local" "Bob B"
                     [MeshLink.mk "node//AAAA" "pc1"]))).
  split; [|reflexivity]. intros node. simpl. reflexivity.
Defined.
